(** * LAMA2020: Gram-Schmidt orthogonalisation and the unshifted QR algorithm

    A shallow embedding of the two hand-written procedures of the notebooks:

    - [GS], the classical Gram-Schmidt procedure of the Axler 6.B.5 notebook,
      together with its [inner] and [norm];
    - the [while] loop of the "QR algorithm for computing eigenvalues" cell of
      [LAMA2020_faktoris.ipynb];
    - the matrices and the solves of the Cholesky, LU and nilpotent-matrix
      cells of the same notebook.

    Scalars are real numbers (Stdlib's [R]): sympy computes exactly, and the
    floating-point numbers of numpy are idealised as reals. *)

From Stdlib Require Import Reals Lra Lia List Setoid Morphisms RelationClasses.
From Stdlib Require Import Permutation Sorted.
From mathcomp Require boot order algebra.
Import ListNotations.
Local Open Scope R_scope.

(** ** Values of the symbolic library

    A sympy expression that [GS] handles is either a finite value or one of
    sympy's non-finite values: dividing by zero raises no exception there, it
    yields [nan] (for [0/0]) or [zoo] times an expression, and every
    arithmetic operation, [integrate] and [sqrt] absorb such a value. A value is
    therefore an [option]: [Some a] is the finite value [a], [None] is written
    [nan]. *)

Notation "'nan'" := (@None _).

(** ** The vectors [GS] works on

    [GS] uses [-], [*] (scalar times vector) and [/] (vector by scalar) on the
    elements of [v_list], and the global [inner]. [VectorOps] collects these
    operations on finite values; [veq] is equality of vectors. *)

Class VectorOps (V : Type) : Type := {
  veq : V -> V -> Prop;
  vzero : V;
  vadd : V -> V -> V;
  vsub : V -> V -> V;
  vscale : R -> V -> V;
  ip : V -> V -> R
}.

Declare Scope vec_scope.
Delimit Scope vec_scope with vec.
Infix "==" := veq (at level 70, no associativity) : vec_scope.
Local Open Scope vec_scope.

(** A real inner-product space: the vector-space laws up to [veq], and a
    symmetric, bilinear, positive-definite [ip]. *)

Class InnerProductSpace (V : Type) {ops : VectorOps V} : Prop := {
  veq_equiv :: Equivalence veq;
  vadd_proper :: Proper (veq ==> veq ==> veq) vadd;
  vsub_proper :: Proper (veq ==> veq ==> veq) vsub;
  vscale_proper :: Proper (eq ==> veq ==> veq) vscale;
  ip_proper :: Proper (veq ==> veq ==> eq) ip;
  vadd_comm : forall u v, vadd u v == vadd v u;
  vadd_assoc : forall u v w, vadd u (vadd v w) == vadd (vadd u v) w;
  vadd_zero_l : forall v, vadd vzero v == v;
  vadd_opp : forall v, vadd v (vscale (-1) v) == vzero;
  vsub_def : forall u v, vsub u v == vadd u (vscale (-1) v);
  vscale_one : forall v, vscale 1 v == v;
  vscale_assoc : forall a b v, vscale a (vscale b v) == vscale (a * b) v;
  vscale_vadd : forall a u v, vscale a (vadd u v) == vadd (vscale a u) (vscale a v);
  vscale_plus : forall a b v, vscale (a + b) v == vadd (vscale a v) (vscale b v);
  ip_sym : forall u v, ip u v = ip v u;
  ip_vadd_l : forall u v w, ip (vadd u v) w = ip u w + ip v w;
  ip_vscale_l : forall a u v, ip (vscale a u) v = a * ip u v;
  ip_nonneg : forall v, 0 <= ip v v;
  ip_definite : forall v, ip v v = 0 -> v == vzero
}.

(** ** The notebook's functions *)

Section GramSchmidt.

Context {V : Type} {ops : VectorOps V}.

(** [inner(f,g)]: [integrate(f*g,(x,0,1))], which is [nan] as soon as [f] or [g]
    is. *)
Definition inner (f g : option V) : option R :=
  match f, g with
  | Some u, Some w => Some (ip u w)
  | _, _ => nan
  end.

(** [norm(f)]: [sqrt(inner(f,f))]. *)
Definition norm (f : option V) : option R :=
  option_map sqrt (inner f f).

(** [c*e] for a scalar [c] and a vector [e]. *)
Definition smul (c : option R) (e : option V) : option V :=
  match c, e with
  | Some a, Some u => Some (vscale a u)
  | _, _ => nan
  end.

(** [v - w]. *)
Definition ssub (v w : option V) : option V :=
  match v, w with
  | Some u, Some u' => Some (vsub u u')
  | _, _ => nan
  end.

(** [v/c]: sympy multiplies [v] by [c**-1]; for [c = 0] the result is not
    finite and nothing is raised. *)
Definition sdiv (v : option V) (c : option R) : option V :=
  match v, c with
  | Some u, Some r => if Req_dec_T r 0 then nan else Some (vscale (/ r) u)
  | _, _ => nan
  end.

(** The body of the inner loop: [v = v - inner(v,e)*e]. *)
Definition GS_project (v e : option V) : option V :=
  ssub v (smul (inner v e) e).

(** The body of the outer loop, from the list of [e]'s built so far and the next
    [v]: orthogonalise [v] to the previous [e]'s, one after the other on the
    running value, renormalise, append. *)
Definition GS_body (e_list : list (option V)) (v : option V) : list (option V) :=
  let v := fold_left GS_project e_list v in
  let v_nrm := norm v in
  let e := sdiv v v_nrm in
  e_list ++ [e].

(** [GS(v_list)]. *)
Definition GS (v_list : list (option V)) : list (option V) :=
  fold_left GS_body v_list [].

(** The variant the specification contrasts [GS] with: every projection is
    computed against the original [v], not against the running value. *)
Definition GS_body_simultaneous (e_list : list (option V)) (v : option V)
  : list (option V) :=
  let w := fold_left (fun acc e => ssub acc (smul (inner v e) e)) e_list v in
  let w_nrm := norm w in
  let e := sdiv w w_nrm in
  e_list ++ [e].

Definition GS_simultaneous (v_list : list (option V)) : list (option V) :=
  fold_left GS_body_simultaneous v_list [].

(** The same steps on finite vectors. *)
Definition projectV (v e : V) : V := vsub v (vscale (ip v e) e).

Definition residualV (es : list V) (v : V) : V := fold_left projectV es v.

Definition normalizeV (r : V) : V := vscale (/ sqrt (ip r r)) r.

(** ** Linear algebra vocabulary *)

(** Linear combinations, spans and linear independence. *)
Fixpoint lincomb (cs : list R) (vs : list V) : V :=
  match cs, vs with
  | c :: cs', v :: vs' => vadd (vscale c v) (lincomb cs' vs')
  | _, _ => vzero
  end.

Definition in_span (v : V) (basis : list V) : Prop :=
  exists cs, length cs = length basis /\ v == lincomb cs basis.

Definition lin_indep (vs : list V) : Prop :=
  forall cs, length cs = length vs -> lincomb cs vs == vzero ->
             Forall (fun c => c = 0) cs.

(** Orthonormality of an output list, through the notebook's [inner] and
    [norm]. *)
Definition orthonormal (e_list : list (option V)) : Prop :=
  (forall i j, (i < length e_list)%nat -> (j < length e_list)%nat -> i <> j ->
               inner (nth i e_list nan) (nth j e_list nan) = Some 0) /\
  (forall i, (i < length e_list)%nat -> norm (nth i e_list nan) = Some 1).

(** Orthonormality of a list of finite vectors. *)
Fixpoint orthoV (es : list V) : Prop :=
  match es with
  | [] => True
  | e :: es' => ip e e = 1 /\ Forall (fun e' => ip e e' = 0) es' /\ orthoV es'
  end.

(** The simultaneous projection loop on finite vectors. *)
Definition residualV_simultaneous (es : list V) (v0 w : V) : V :=
  fold_left (fun acc e => vsub acc (vscale (ip v0 e) e)) es w.

(** What the outer loop has established after processing [vs], with [es] the
    finite vectors produced. *)
Definition GS_post (vs es : list V) : Prop :=
  length es = length vs /\ orthoV es /\
  Forall (fun v => in_span v es) vs /\ Forall (fun e => in_span e vs) es.

End GramSchmidt.

(** ** How a call ends

    The notebooks define no exception and contain no [raise]; the errors below
    are the ones the specification names. sympy's arithmetic raises nothing on a
    zero divisor, so a call of [GS] always returns. *)

Inductive error : Type :=
  | DegenerateInputError (index : nat)
  | InvalidArgumentError
  | NonConvergenceError (iterations : nat).

Inductive outcome (A : Type) : Type :=
  | Returns (a : A)
  | Raises (e : error).

Arguments Returns {A} a.
Arguments Raises {A} e.

(** A call [GS(v_list)]. *)
Definition call_GS {V : Type} {ops : VectorOps V} (v_list : list (option V))
  : outcome (list (option V)) :=
  Returns (GS v_list).

(** The entrywise sum of two lists of numbers. *)
Definition zip_plus (cs ds : list R) : list R :=
  map (fun p => fst p + snd p) (combine cs ds).

(** ** The vectors of the notebook: polynomials in [x]

    The notebook applies [GS] to sympy polynomials in the symbol [x]. A
    polynomial is the list of its coefficients, constant term first. *)

Definition poly : Type := list R.

(** The symbol [x] and a constant. *)
Definition X : poly := [0; 1].
Definition const (c : R) : poly := [c].

(** Two polynomials are equal when they have the same coefficients. *)
Definition Peq (p q : poly) : Prop := forall n, nth n p 0 = nth n q 0.

Fixpoint padd (p q : poly) : poly :=
  match p, q with
  | [], _ => q
  | _, [] => p
  | a :: p', b :: q' => (a + b) :: padd p' q'
  end.

Definition pscale (c : R) (p : poly) : poly := map (Rmult c) p.

(** [p - q], which sympy holds as [p + (-1)*q]. *)
Definition psub (p q : poly) : poly := padd p (pscale (-1) q).

(** [p*q]. *)
Fixpoint pmul (p q : poly) : poly :=
  match p with
  | [] => []
  | a :: p' => padd (pscale a q) (0 :: pmul p' q)
  end.

(** The value of a polynomial at a point. *)
Fixpoint peval (p : poly) (x : R) : R :=
  match p with
  | [] => 0
  | c :: p' => c + x * peval p' x
  end.

(** [integrate(p,(x,0,1))]: the coefficient of [x^k] contributes [c/(k+1)].
    [integrate_from k p] integrates [x^k * p]. *)
Fixpoint integrate_from (k : nat) (p : poly) : R :=
  match p with
  | [] => 0
  | c :: p' => c / INR (S k) + integrate_from (S k) p'
  end.

Definition integrate01 (p : poly) : R := integrate_from 0 p.

(** The notebook's [inner] on finite values: [integrate(f*g,(x,0,1))]. *)
Definition poly_inner (f g : poly) : R := integrate01 (pmul f g).

#[export] Instance poly_ops : VectorOps poly := {
  veq := Peq;
  vzero := [];
  vadd := padd;
  vsub := psub;
  vscale := pscale;
  ip := poly_inner
}.

(** The antiderivative of [x^k * p] that vanishes at 0, divided by [x^(k+1)]. *)
Fixpoint pint_from (k : nat) (p : poly) : poly :=
  match p with
  | [] => []
  | c :: p' => c / INR (S k) :: pint_from (S k) p'
  end.

(** A bound of [|p(x)|] on the unit interval. *)
Fixpoint pbound (p : poly) : R :=
  match p with
  | [] => 0
  | c :: p' => Rabs c + pbound p'
  end.

(** [p] has a root in every subinterval of the unit interval. *)
Definition dense_roots (p : poly) : Prop :=
  forall a b, 0 <= a -> a < b -> b <= 1 -> exists c, a < c < b /\ peval p c = 0.

(** The antiderivative of [q] that vanishes at 0. *)
Definition primitive (q : poly) (y : R) : R := y * peval (pint_from 0 q) y.

(** ** The notebook's run: [GS([1, x, x**2])] *)

Definition v_list : list (option poly) :=
  [Some (const 1); Some X; Some (pmul X X)].

(** [2*sqrt(3)*(x - 1/2)] and [6*sqrt(5)*(x**2 - x + 1/6)]. *)
Definition e_2 : poly := pscale (2 * sqrt 3) (psub X (const (1 / 2))).
Definition e_3 : poly :=
  pscale (6 * sqrt 5) (padd (psub (pmul X X) X) (const (1 / 6))).

(** ** The QR-algorithm cell

    A numpy 2-D array is the list of its rows. The cell builds an [n] by [n]
    array [A] and [np.linalg.qr] returns [n] by [n] factors, so the shapes in
    [R@Q] always agree; on rows of different lengths the operations below
    truncate to the shorter one. *)

Definition matrix : Type := list (list R).

Definition indexed {A : Type} (l : list A) : list (nat * A) :=
  combine (seq 0 (length l)) l.

(** [np.tril(A,-1)]: the entries strictly below the diagonal, zero elsewhere. *)
Definition np_tril_below (A : matrix) : matrix :=
  map (fun ir =>
         map (fun ja => if (fst ja <? fst ir)%nat then snd ja else 0)
             (indexed (snd ir)))
      (indexed A).

(** [np.linalg.norm(A)]: the Frobenius norm. *)
Definition sum_squares (A : matrix) : R :=
  fold_right (fun row acc => fold_right (fun a s => a * a + s) 0 row + acc) 0 A.

Definition np_norm (A : matrix) : R := sqrt (sum_squares A).

(** [A@B]: row [i] of the product is the sum of the rows of [B] weighted by
    row [i] of [A]. *)
Fixpoint row_times (a : list R) (B : matrix) (n : nat) : list R :=
  match a, B with
  | ak :: a', bk :: B' => zip_plus (map (Rmult ak) bk) (row_times a' B' n)
  | _, _ => repeat 0 n
  end.

Definition ncols (B : matrix) : nat :=
  match B with
  | [] => 0%nat
  | r :: _ => length r
  end.

Definition matmul (A B : matrix) : matrix :=
  map (fun a => row_times a B (ncols B)) A.

(** [np.diag(A)]. *)
Fixpoint diag_from (k : nat) (A : matrix) : list R :=
  match A with
  | [] => []
  | row :: A' => nth k row 0 :: diag_from (S k) A'
  end.

Definition np_diag (A : matrix) : list R := diag_from 0 A.

(** [np.sort]: the ascending rearrangement. *)
Fixpoint insert_sorted (x : R) (l : list R) : list R :=
  match l with
  | [] => [x]
  | y :: l' => if Rle_lt_dec x y then x :: l else y :: insert_sorted x l'
  end.

Definition np_sort (l : list R) : list R := fold_right insert_sorted [] l.

(** [epsilon = 1.0E-08]. *)
Definition epsilon : R := 1e-8.

(** What [np.linalg.qr] promises of its result on an [n] by [n] array:
    [Q] with orthonormal columns, [R] upper triangular, [Q@R = A]. *)
Definition transpose (A : matrix) : matrix :=
  map (fun j => map (fun row => nth j row 0) A) (seq 0 (ncols A)).

Definition identity (n : nat) : matrix :=
  map (fun i => map (fun j => if (i =? j)%nat then 1 else 0) (seq 0 n)) (seq 0 n).

Definition shape (n : nat) (A : matrix) : Prop :=
  length A = n /\ Forall (fun row => length row = n) A.

Definition qr_contract (n : nat) (A Q R : matrix) : Prop :=
  shape n Q /\ shape n R /\
  matmul (transpose Q) Q = identity n /\
  sum_squares (np_tril_below R) = 0 /\
  matmul Q R = A.

Section QRAlgorithm.

(** [np.linalg.qr], and the tolerance. *)
Variable qr : matrix -> matrix * matrix.
Variable eps : R.

(** The loop condition
    [np.linalg.norm(np.tril(A,-1)) > epsilon*np.linalg.norm(A)]. *)
Definition keeps_iterating (A : matrix) : Prop :=
  np_norm (np_tril_below A) > eps * np_norm A.

(** The convergence predicate of the specification. *)
Definition converged (A : matrix) : Prop :=
  np_norm (np_tril_below A) <= eps * np_norm A.

(** The loop body: [Q,R = np.linalg.qr(A); A = R@Q]. *)
Definition qr_step (A : matrix) : matrix :=
  let (Q, R) := qr A in matmul R Q.

(** The [while] loop, which has no bound of its own: [fuel] bounds the number
    of times the condition is tested, and [None] means that the loop is still
    running when the fuel is used up. *)
Fixpoint qr_loop (fuel : nat) (A : matrix) : option matrix :=
  match fuel with
  | O => None
  | S fuel' =>
      if Rgt_dec (np_norm (np_tril_below A)) (eps * np_norm A)
      then qr_loop fuel' (qr_step A)
      else Some A
  end.

(** The iterate [A_k]. *)
Fixpoint iterate (k : nat) (A : matrix) : matrix :=
  match k with
  | O => A
  | S k' => iterate k' (qr_step A)
  end.

(** What the cell prints last: [np.sort(np.diag(A))]. *)
Definition qr_cell (fuel : nat) (A : matrix) : option (list R) :=
  option_map (fun A' => np_sort (np_diag A')) (qr_loop fuel A).

End QRAlgorithm.

(** The matrices [[0, t], [-t, 0]] with [t*t = 1]: the two rotations by a
    quarter turn, whose eigenvalues are the complex-conjugate pair [i], [-i]. *)
Definition quarter_turn (t : R) : matrix := [[0; t]; [- t; 0]].

(** A factorisation procedure that meets [qr_contract] on the quarter turns:
    they are orthogonal, so [Q = A] and [R] the identity. *)
Definition qr_orthogonal (A : matrix) : matrix * matrix := (A, identity 2).

(** A factorisation procedure that meets [qr_contract] on upper-triangular
    arrays: [Q] the identity and [R = A]. *)
Definition qr_upper (A : matrix) : matrix * matrix := (identity (length A), A).

(** The factorisation procedure meets its contract on the quarter turns. *)
Definition qr_contract_on_quarter_turns (qr : matrix -> matrix * matrix) : Prop :=
  forall t, t * t = 1 ->
            qr_contract 2 (quarter_turn t) (fst (qr (quarter_turn t)))
                        (snd (qr (quarter_turn t))).

(** The arrays of the two runs below. *)
Definition diag_2_1 : matrix := [[2; 0]; [0; 1]].

Definition row_1_2_3 : matrix := [[1; 2; 3]].

(** ** The loop body on the matrices of a field

    The loop body [Q,R = np.linalg.qr(A); A = R@Q] once more, over the square
    matrices of any field: there determinants and characteristic polynomials
    are MathComp's. *)

Module QRMatrix.

Set Warnings "-notation-overridden,-ambiguous-paths".
Import mathcomp.boot.boot mathcomp.algebra.algebra.
Local Open Scope ring_scope.

Section Definitions.

Variable F : fieldType.
Variable n : nat.

(** [np.linalg.qr]. *)
Variable qr : 'M[F]_n -> 'M[F]_n * 'M[F]_n.

(** The loop body: [Q,R = np.linalg.qr(A); A = R@Q]. *)
Definition qr_step_mx (A : 'M[F]_n) : 'M[F]_n :=
  let: (Q, R) := qr A in R *m Q.

(** The iterate [A_k]. *)
Definition iterate_mx (k : nat) (A : 'M[F]_n) : 'M[F]_n := iter k qr_step_mx A.

(** [Q] is orthonormal and [Q@R = A]. *)
Definition qr_factors (A Q R : 'M[F]_n) : Prop :=
  Q^T *m Q = 1%:M /\ Q *m R = A.

Definition qr_factors_at (A : 'M[F]_n) : Prop :=
  qr_factors A (qr A).1 (qr A).2.

End Definitions.

Arguments qr_step_mx {F n} qr A.
Arguments iterate_mx {F n} qr k A.
Arguments qr_factors {F n} A Q R.
Arguments qr_factors_at {F n} qr A.

(** The quarter turn [[0, 1], [-1, 0]] over the rationals, and a factorisation
    procedure for orthogonal matrices: [Q = A] and [R] the identity. *)
Definition quarter_turn_mx : 'M[rat]_2 :=
  \matrix_(i, j) (if (i == 0) && (j == 1) then 1
                  else if (i == 1) && (j == 0) then -1 else 0).

Definition qr_orthogonal_mx (A : 'M[rat]_2) : 'M[rat]_2 * 'M[rat]_2 :=
  (A, 1%:M).

End QRMatrix.

(** ** The other cells of the factorisation notebook

    The accumulated factors of the QR loop, and the matrices and solves of
    the Cholesky, LU and nilpotent-matrix cells, over the matrices of a
    field. *)

Module Factorisations.

Set Warnings "-notation-overridden,-ambiguous-paths".
Import mathcomp.boot.boot mathcomp.algebra.algebra.
Import QRMatrix.
Local Open Scope ring_scope.

Section Definitions.

Variable F : fieldType.
Variable n : nat.

(** [np.linalg.qr]. *)
Variable qr : 'M[F]_n -> 'M[F]_n * 'M[F]_n.

(** [Q_0 @ Q_1 @ ... @ Q_(k-1)] and [R_(k-1) @ ... @ R_1 @ R_0], the factors
    that the first [k] passes of the loop obtain. *)
Fixpoint Q_acc (k : nat) (A : 'M[F]_n) : 'M[F]_n :=
  if k is k'.+1 then Q_acc k' A *m (qr (iterate_mx qr k' A)).1 else 1%:M.

Fixpoint R_acc (k : nat) (A : 'M[F]_n) : 'M[F]_n :=
  if k is k'.+1 then (qr (iterate_mx qr k' A)).2 *m R_acc k' A else 1%:M.

(** The power [A^k]. *)
Definition mx_power (k : nat) (A : 'M[F]_n) : 'M[F]_n := iter k (mulmx A) 1%:M.

(** Upper triangular: [np.tril(A,-1)] is zero. *)
Definition upper_triangular (A : 'M[F]_n) : bool := is_trig_mx A^T.

(** The input of the QR-algorithm cell and of the [sl.eigh] cell:
    [A = Atmp.T @ Atmp]. *)
Definition gram (Atmp : 'M[F]_n) : 'M[F]_n := Atmp^T *m Atmp.

(** [np.diag(A)] as a sequence. *)
Definition diag_mx_seq (A : 'M[F]_n) : seq F := [seq A i i | i : 'I_n].

(** [np.linalg.solve], and what it promises on an invertible matrix. *)
Variable solve : 'M[F]_n -> 'cV[F]_n -> 'cV[F]_n.

Definition solve_contract : Prop :=
  forall (M : 'M[F]_n) (b : 'cV[F]_n), M \in unitmx -> M *m solve M b = b.

(** The Cholesky cell over the reals:
    [y = np.linalg.solve(L,b); x = np.linalg.solve(np.conjugate(L).T,y)]. *)
Definition cholesky_solve (L : 'M[F]_n) (b : 'cV[F]_n) : 'cV[F]_n :=
  let y := solve L b in
  let x := solve L^T y in
  x.

(** The LU cell:
    [y = np.linalg.solve(L,P.T@b); x = np.linalg.solve(U,y)]. *)
Definition lu_solve (P L U : 'M[F]_n) (b : 'cV[F]_n) : 'cV[F]_n :=
  let y := solve L (P^T *m b) in
  let x := solve U y in
  x.

(** [np.tril(np.reshape(np.arange(n*n)+1,(n,n)))]: entry [(i, j)] is
    [i*n + j + 1] on and below the diagonal, zero above it. *)
Definition lu_input : 'M[F]_n :=
  \matrix_(i, j) (if (j <= i)%N then (i * n + j + 1)%:R else 0).

(** A factorisation procedure with an orthonormal [Q] and [Q@R = A] on
    every matrix: [Q] the identity and [R = A]. *)
Definition qr_upper_mx (A : 'M[F]_n) : 'M[F]_n * 'M[F]_n := (1%:M, A).

(** A solver that meets [solve_contract]. *)
Definition solve_by_inverse (M : 'M[F]_n) (b : 'cV[F]_n) : 'cV[F]_n :=
  invmx M *m b.

End Definitions.

Section Nilpotent.

Variable F : fieldType.
Variable n : nat.

(** [N = np.diag(np.ones(n),1)]: the [n+1] by [n+1] array with ones on the
    first superdiagonal. *)
Definition N : 'M[F]_n.+1 := \matrix_(i, j) (j == i.+1 :> nat)%:R.

End Nilpotent.

Section RealDefinitions.

Variable F : realFieldType.
Variable n : nat.

(** [1.0E-10]. *)
Definition ridge : F := (10 ^+ 10)^-1.

(** The input of the Cholesky cell over the reals:
    [A = np.conjugate(Atmp.T)@Atmp + 1.0E-10*np.eye(n)]. *)
Definition cholesky_input (Atmp : 'M[F]_n) : 'M[F]_n :=
  Atmp^T *m Atmp + ridge *: 1%:M.

End RealDefinitions.

Arguments Q_acc {F n} qr k A.
Arguments R_acc {F n} qr k A.
Arguments mx_power {F n} k A.
Arguments upper_triangular {F n} A.
Arguments gram {F n} Atmp.
Arguments diag_mx_seq {F n} A.
Arguments solve_contract {F n} solve.
Arguments cholesky_solve {F n} solve L b.
Arguments lu_solve {F n} solve P L U b.
Arguments qr_upper_mx {F n} A.
Arguments solve_by_inverse {F n} M b.
Arguments ridge {F}.
Arguments cholesky_input {F n} Atmp.

End Factorisations.

(** ** Further vocabulary for [GS] *)

(** Equality of values: [nan] with [nan], finite vectors up to [veq]. *)
Definition sveq {V : Type} {ops : VectorOps V} (a b : option V) : Prop :=
  match a, b with
  | Some u, Some w => u == w
  | None, None => True
  | _, _ => False
  end.

(** A list of values without [nan]. *)
Definition all_finite {V : Type} (l : list (option V)) : Prop :=
  exists es, l = map Some es.

(** ** Tactics for the concrete runs *)

Ltac poly_unfold :=
  unfold residualV, projectV, normalizeV, e_3, e_2, X, const; simpl;
  unfold poly_inner, integrate01, psub, pscale; simpl.

Ltac coefficientwise :=
  repeat (apply (f_equal2 (@cons R))); try reflexivity.

Ltac entrywise := repeat (apply (f_equal2 (@cons _))); try reflexivity.

(** ** The operations on small inputs *)

Example pmul_square : pmul [1; 1] [1; 1] = [1; 2; 1].
Proof. simpl. unfold pscale. simpl. coefficientwise; lra. Qed.

Example integrate01_x_squared : integrate01 (pmul X X) = 1 / 3.
Proof. poly_unfold. field. Qed.

Example poly_inner_1_x : poly_inner (const 1) X = 1 / 2.
Proof. poly_unfold. field. Qed.

Example GS_nil : GS (@nil (option poly)) = [].
Proof. reflexivity. Qed.

Example GS_nan : GS [@None poly] = [nan].
Proof. reflexivity. Qed.

Example np_tril_below_2x2 : np_tril_below [[1; 2]; [3; 4]] = [[0; 0]; [3; 0]].
Proof. reflexivity. Qed.

Example np_diag_2x2 : np_diag [[1; 2]; [3; 4]] = [1; 4].
Proof. reflexivity. Qed.

Example np_diag_1x3 : np_diag [[1; 2; 3]] = [1].
Proof. reflexivity. Qed.

Example transpose_2x3 :
  transpose [[1; 2; 3]; [4; 5; 6]] = [[1; 4]; [2; 5]; [3; 6]].
Proof. reflexivity. Qed.

Example matmul_2x2 : matmul [[1; 2]; [3; 4]] [[0; 1]; [1; 0]] = [[2; 1]; [4; 3]].
Proof. cbn. entrywise; lra. Qed.

Example np_norm_3_4 : np_norm [[3; 0]; [0; 4]] = 5.
Proof.
  unfold np_norm. cbn.
  replace (3 * 3 + (0 * 0 + 0) + (0 * 0 + (4 * 4 + 0) + 0)) with (5 * 5) by lra.
  apply sqrt_square. lra.
Qed.

Example np_sort_3_1_2 : np_sort [3; 1; 2] = [1; 2; 3].
Proof.
  simpl. repeat (destruct (Rle_lt_dec _ _); try lra; simpl). reflexivity.
Qed.

(** ** Vector algebra in an inner-product space *)

Section VectorAlgebra.

Context {V : Type} {ops : VectorOps V} {IPS : InnerProductSpace V}.

Lemma vadd_zero_r (v : V) : vadd v vzero == v.
Proof. rewrite vadd_comm. apply vadd_zero_l. Qed.

Lemma vscale_zero_l (v : V) : vscale 0 v == vzero.
Proof.
  replace 0 with (1 + -1) by lra.
  rewrite vscale_plus, vscale_one. apply vadd_opp.
Qed.

Lemma vscale_zero_r (a : R) : vscale a vzero == vzero.
Proof.
  rewrite <- (vscale_zero_l vzero) at 1.
  rewrite vscale_assoc, Rmult_0_r. apply vscale_zero_l.
Qed.

Lemma vsub_vadd_cancel (v a : V) : vadd (vsub v a) a == v.
Proof.
  rewrite vsub_def, <- vadd_assoc, (vadd_comm (vscale (-1) a) a), vadd_opp.
  apply vadd_zero_r.
Qed.

Lemma vsub_vsub (v a b : V) : vsub (vsub v a) b == vsub v (vadd a b).
Proof.
  rewrite !vsub_def, vscale_vadd, vadd_assoc. reflexivity.
Qed.

Lemma vsub_zero_eq (v a : V) : vsub v a == vzero -> v == a.
Proof.
  intros E. rewrite <- (vsub_vadd_cancel v a), E. apply vadd_zero_l.
Qed.

Lemma vsub_self (v : V) : vsub v v == vzero.
Proof. rewrite vsub_def. apply vadd_opp. Qed.

Lemma ip_vzero_l (w : V) : ip vzero w = 0.
Proof.
  rewrite <- (vscale_zero_l vzero), ip_vscale_l. lra.
Qed.

Lemma ip_vsub_l (u v w : V) : ip (vsub u v) w = ip u w - ip v w.
Proof.
  rewrite vsub_def, ip_vadd_l, ip_vscale_l. lra.
Qed.

Lemma ip_vscale_r (a : R) (u v : V) : ip u (vscale a v) = a * ip u v.
Proof. rewrite !(ip_sym u). apply ip_vscale_l. Qed.

(** *** Linear combinations *)

Lemma lincomb_app (cs ds : list R) (vs ws : list V) :
  length cs = length vs ->
  lincomb (cs ++ ds) (vs ++ ws) == vadd (lincomb cs vs) (lincomb ds ws).
Proof.
  revert vs. induction cs as [| c cs IH]; intros [| v vs] Hlen; simpl in *;
    try discriminate.
  - symmetry. apply vadd_zero_l.
  - rewrite IH by lia. apply vadd_assoc.
Qed.

Lemma lincomb_zeros (n : nat) (vs : list V) : lincomb (repeat 0 n) vs == vzero.
Proof.
  revert vs. induction n as [| n IH]; intros [| v vs]; simpl; try reflexivity.
  rewrite IH, vscale_zero_l. apply vadd_zero_l.
Qed.

Lemma zip_plus_length (cs ds : list R) :
  length cs = length ds -> length (zip_plus cs ds) = length cs.
Proof.
  intros E. unfold zip_plus. rewrite length_map, length_combine. lia.
Qed.

Lemma lincomb_plus (cs ds : list R) (vs : list V) :
  length cs = length vs -> length ds = length vs ->
  lincomb (zip_plus cs ds) vs == vadd (lincomb cs vs) (lincomb ds vs).
Proof.
  revert ds vs. induction cs as [| c cs IH]; intros [| d ds] [| v vs] Hc Hd;
    simpl in *; try discriminate.
  - symmetry. apply vadd_zero_l.
  - fold (zip_plus cs ds). rewrite IH by lia. rewrite vscale_plus.
    rewrite <- !vadd_assoc. apply vadd_proper; [reflexivity |].
    rewrite !vadd_assoc. apply vadd_proper; [| reflexivity].
    apply vadd_comm.
Qed.

Lemma lincomb_scale (a : R) (cs : list R) (vs : list V) :
  lincomb (map (Rmult a) cs) vs == vscale a (lincomb cs vs).
Proof.
  revert vs. induction cs as [| c cs IH]; intros [| v vs]; simpl;
    try (symmetry; apply vscale_zero_r).
  rewrite IH, vscale_vadd, vscale_assoc. reflexivity.
Qed.

(** *** Spans *)

#[export] Instance in_span_proper :
  Proper (veq ==> eq ==> iff) (@in_span V ops).
Proof.
  intros u v E bs bs' <-. unfold in_span.
  split; intros (cs & Hl & Hc); exists cs; split; auto.
  - rewrite <- E. exact Hc.
  - rewrite E. exact Hc.
Qed.

Lemma in_span_zero (bs : list V) : in_span vzero bs.
Proof.
  exists (repeat 0 (length bs)). split; [apply repeat_length |].
  symmetry. apply lincomb_zeros.
Qed.

Lemma in_span_vadd (u v : V) (bs : list V) :
  in_span u bs -> in_span v bs -> in_span (vadd u v) bs.
Proof.
  intros (cs & Hlc & Hc) (ds & Hld & Hd). exists (zip_plus cs ds). split.
  - rewrite zip_plus_length; congruence.
  - rewrite lincomb_plus by assumption. rewrite Hc, Hd. reflexivity.
Qed.

Lemma in_span_vscale (a : R) (v : V) (bs : list V) :
  in_span v bs -> in_span (vscale a v) bs.
Proof.
  intros (cs & Hl & Hc). exists (map (Rmult a) cs). split.
  - rewrite length_map. exact Hl.
  - rewrite lincomb_scale, Hc. reflexivity.
Qed.

Lemma in_span_vsub (u v : V) (bs : list V) :
  in_span u bs -> in_span v bs -> in_span (vsub u v) bs.
Proof.
  intros Hu Hv. rewrite vsub_def.
  apply in_span_vadd; [exact Hu | apply in_span_vscale, Hv].
Qed.

Lemma in_span_lincomb (cs : list R) (es bs : list V) :
  Forall (fun e => in_span e bs) es -> in_span (lincomb cs es) bs.
Proof.
  intros H. revert cs. induction H as [| e es He _ IH]; intros [| c cs]; simpl;
    try apply in_span_zero.
  apply in_span_vadd; [apply in_span_vscale, He | apply IH].
Qed.

Lemma in_span_trans (v : V) (es bs : list V) :
  in_span v es -> Forall (fun e => in_span e bs) es -> in_span v bs.
Proof.
  intros (cs & _ & Hc) H. rewrite Hc. apply in_span_lincomb, H.
Qed.

Lemma in_span_In (e : V) (bs : list V) : In e bs -> in_span e bs.
Proof.
  induction bs as [| b bs IH]; intros Hin; [destruct Hin |].
  destruct Hin as [-> | Hin].
  - exists (1 :: repeat 0 (length bs)). split; [simpl; now rewrite repeat_length |].
    simpl. rewrite lincomb_zeros, vscale_one, vadd_zero_r. reflexivity.
  - destruct (IH Hin) as (cs & Hl & Hc). exists (0 :: cs). split; [simpl; lia |].
    simpl. rewrite vscale_zero_l, vadd_zero_l. exact Hc.
Qed.

Lemma in_span_incl (v : V) (es bs : list V) :
  incl es bs -> in_span v es -> in_span v bs.
Proof.
  intros Hincl Hv. apply (in_span_trans v es bs Hv).
  apply Forall_forall. intros e He. apply in_span_In, Hincl, He.
Qed.

(** *** Linear independence *)

Lemma lin_indep_app_l (vs ws : list V) : lin_indep (vs ++ ws) -> lin_indep vs.
Proof.
  intros H cs Hl Hc.
  assert (HF : Forall (fun c => c = 0) (cs ++ repeat 0 (length ws))).
  { apply H.
    - rewrite !length_app, repeat_length. lia.
    - rewrite lincomb_app by exact Hl. rewrite Hc, lincomb_zeros.
      apply vadd_zero_l. }
  apply Forall_app in HF. apply HF.
Qed.

Lemma lin_indep_last (vs : list V) (v : V) :
  lin_indep (vs ++ [v]) -> ~ in_span v vs.
Proof.
  intros H (cs & Hl & Hc).
  assert (HF : Forall (fun c => c = 0) (cs ++ [-1])).
  { apply H.
    - rewrite !length_app. simpl. lia.
    - rewrite lincomb_app by exact Hl. simpl. rewrite vadd_zero_r, <- Hc.
      apply vadd_opp. }
  apply Forall_app in HF. destruct HF as [_ HF]. inversion HF; subst. lra.
Qed.

End VectorAlgebra.

(** ** Gram-Schmidt on finite vectors *)

Section GramSchmidtTheory.

Context {V : Type} {ops : VectorOps V} {IPS : InnerProductSpace V}.

Lemma fold_project_Some (es : list V) (v : V) :
  fold_left GS_project (map Some es) (Some v) = Some (residualV es v).
Proof.
  revert v. induction es as [| e es IH]; intros v; simpl; [reflexivity |].
  apply IH.
Qed.

Lemma fold_simultaneous_Some (es : list V) (v0 w : V) :
  fold_left (fun acc e => ssub acc (smul (inner (Some v0) e) e))
            (map Some es) (Some w)
  = Some (residualV_simultaneous es v0 w).
Proof.
  revert w. induction es as [| e es IH]; intros w; simpl; [reflexivity |].
  apply IH.
Qed.

Lemma normalise_finite (r : V) :
  ip r r <> 0 ->
  sdiv (Some r) (norm (Some r)) = Some (normalizeV r).
Proof.
  intros Hr. unfold norm, inner, sdiv. simpl.
  destruct (Req_dec_T (sqrt (ip r r)) 0) as [E | _]; [| reflexivity].
  exfalso. apply Hr. apply sqrt_eq_0; [apply ip_nonneg | exact E].
Qed.

Lemma normalise_degenerate (r : V) :
  ip r r = 0 -> sdiv (Some r) (norm (Some r)) = nan.
Proof.
  intros Hr. unfold norm, inner, sdiv. simpl. rewrite Hr, sqrt_0.
  destruct (Req_dec_T 0 0) as [_ | N]; [reflexivity | now elim N].
Qed.

Lemma GS_body_finite (es : list V) (v : V) :
  ip (residualV es v) (residualV es v) <> 0 ->
  GS_body (map Some es) (Some v) = map Some (es ++ [normalizeV (residualV es v)]).
Proof.
  intros Hr. unfold GS_body. rewrite fold_project_Some.
  rewrite normalise_finite by exact Hr. now rewrite map_app.
Qed.

Lemma GS_body_degenerate (es : list V) (v : V) :
  ip (residualV es v) (residualV es v) = 0 ->
  GS_body (map Some es) (Some v) = map Some es ++ [nan].
Proof.
  intros Hr. unfold GS_body. rewrite fold_project_Some.
  now rewrite normalise_degenerate.
Qed.

Lemma GS_snoc (v_list : list (option V)) (v : option V) :
  GS (v_list ++ [v]) = GS_body (GS v_list) v.
Proof. unfold GS. now rewrite fold_left_app. Qed.

Lemma GS_simultaneous_snoc (v_list : list (option V)) (v : option V) :
  GS_simultaneous (v_list ++ [v]) = GS_body_simultaneous (GS_simultaneous v_list) v.
Proof. unfold GS_simultaneous. now rewrite fold_left_app. Qed.

(** The loop only appends: the output on a prefix is a prefix of the output. *)
Lemma fold_GS_body_length (l acc : list (option V)) :
  length (fold_left GS_body l acc) = (length acc + length l)%nat.
Proof.
  revert acc. induction l as [| v l IH]; intros acc; simpl; [lia |].
  rewrite IH. unfold GS_body. rewrite length_app. simpl. lia.
Qed.

Lemma fold_GS_body_prefix (l acc : list (option V)) :
  firstn (length acc) (fold_left GS_body l acc) = acc.
Proof.
  revert acc. induction l as [| v l IH]; intros acc; simpl.
  - apply firstn_all.
  - assert (E : firstn (length (GS_body acc v)) (fold_left GS_body l (GS_body acc v))
                = GS_body acc v) by apply IH.
    unfold GS_body in E at 1. rewrite length_app in E. simpl in E.
    apply (f_equal (firstn (length acc))) in E.
    rewrite firstn_firstn in E.
    replace (Nat.min (length acc) (length acc + 1)) with (length acc) in E by lia.
    rewrite E. unfold GS_body. rewrite firstn_app, firstn_all.
    replace (length acc - length acc)%nat with 0%nat by lia.
    simpl. apply app_nil_r.
Qed.

Lemma GS_length (v_list : list (option V)) : length (GS v_list) = length v_list.
Proof. unfold GS. now rewrite fold_GS_body_length. Qed.

Lemma GS_firstn (j : nat) (v_list : list (option V)) :
  (j <= length v_list)%nat -> firstn j (GS v_list) = GS (firstn j v_list).
Proof.
  intros Hj. rewrite <- (firstn_skipn j v_list) at 1.
  unfold GS. rewrite fold_left_app.
  pose proof (fold_GS_body_prefix (skipn j v_list)
                (fold_left GS_body (firstn j v_list) [])) as E.
  rewrite fold_GS_body_length in E. simpl in E.
  rewrite length_firstn in E.
  replace (Nat.min j (length v_list)) with j in E by lia.
  exact E.
Qed.

(** *** The residual of the projection loop *)

Lemma residualV_keeps_orth (es : list V) (w e : V) :
  Forall (fun e' => ip e e' = 0) es -> ip w e = 0 -> ip (residualV es w) e = 0.
Proof.
  intros H. revert w. induction H as [| e' es He' _ IH]; intros w Hw; simpl.
  - exact Hw.
  - apply IH. unfold projectV.
    rewrite ip_vsub_l, ip_vscale_l, Hw, (ip_sym e' e), He'. lra.
Qed.

Lemma residualV_orth (es : list V) (v : V) :
  orthoV es -> Forall (fun e => ip (residualV es v) e = 0) es.
Proof.
  revert v. induction es as [| e es IH]; intros v Ho; [constructor |].
  destruct Ho as (Hee & Hort & Ho). simpl. constructor.
  - apply residualV_keeps_orth; [exact Hort |].
    unfold projectV. rewrite ip_vsub_l, ip_vscale_l, Hee. lra.
  - apply IH, Ho.
Qed.

Lemma residualV_form (es : list V) (v : V) :
  exists cs, length cs = length es /\ residualV es v == vsub v (lincomb cs es).
Proof.
  revert v. induction es as [| e es IH]; intros v.
  - exists []. split; [reflexivity |]. simpl.
    rewrite vsub_def, vscale_zero_r, vadd_zero_r. reflexivity.
  - destruct (IH (projectV v e)) as (cs & Hl & Hc).
    exists (ip v e :: cs). split; [simpl; lia |].
    simpl. fold (residualV es (projectV v e)). rewrite Hc. unfold projectV.
    apply vsub_vsub.
Qed.

Lemma residualV_simultaneous_eq (es : list V) (v0 w : V) :
  orthoV es -> Forall (fun e => ip w e = ip v0 e) es ->
  residualV es w = residualV_simultaneous es v0 w.
Proof.
  revert w. induction es as [| e es IH]; intros w Ho Hw; [reflexivity |].
  destruct Ho as (Hee & Hort & Ho). inversion Hw as [| ? ? Hwe Hw']; subst.
  change (residualV es (projectV w e)
          = residualV_simultaneous es v0 (vsub w (vscale (ip v0 e) e))).
  unfold projectV. rewrite Hwe. apply IH; [exact Ho |].
  rewrite Forall_forall in *. intros e' He'.
  rewrite ip_vsub_l, ip_vscale_l, (Hort e' He'), (Hw' e' He'). lra.
Qed.

(** *** Orthonormal lists *)

Lemma orthoV_snoc (es : list V) (e : V) :
  orthoV es -> Forall (fun e' => ip e' e = 0) es -> ip e e = 1 ->
  orthoV (es ++ [e]).
Proof.
  induction es as [| a es IH]; intros Ho Hort He; simpl.
  - repeat split; [exact He | constructor].
  - destruct Ho as (Haa & Ha & Ho). inversion Hort; subst.
    repeat split; [exact Haa | | apply IH; assumption].
    apply Forall_app. split; [exact Ha | constructor; [assumption | constructor]].
Qed.

Lemma orthoV_nth (es : list V) (d : V) (i j : nat) :
  orthoV es -> (i < length es)%nat -> (j < length es)%nat ->
  ip (nth i es d) (nth j es d) = if Nat.eqb i j then 1 else 0.
Proof.
  revert i j. induction es as [| a es IH]; intros i j Ho Hi Hj; simpl in *; [lia |].
  destruct Ho as (Haa & Ha & Ho).
  assert (Hnth : forall k, (k < length es)%nat -> ip a (nth k es d) = 0).
  { intros k Hk. rewrite Forall_forall in Ha. apply Ha, nth_In, Hk. }
  destruct i as [| i], j as [| j]; simpl.
  - exact Haa.
  - apply Hnth. lia.
  - rewrite ip_sym. apply Hnth. lia.
  - apply IH; [exact Ho | lia | lia].
Qed.

Lemma normalizeV_unit (r : V) : ip r r <> 0 -> ip (normalizeV r) (normalizeV r) = 1.
Proof.
  intros Hr. unfold normalizeV. rewrite ip_vscale_l, ip_vscale_r.
  pose proof (ip_nonneg r) as Hnn.
  assert (Hs : sqrt (ip r r) * sqrt (ip r r) = ip r r) by (apply sqrt_sqrt, Hnn).
  assert (Hs0 : sqrt (ip r r) <> 0).
  { intros E. rewrite E in Hs. lra. }
  rewrite <- Hs at 3. field. exact Hs0.
Qed.

Lemma normalizeV_denormalise (r : V) :
  ip r r <> 0 -> r == vscale (sqrt (ip r r)) (normalizeV r).
Proof.
  intros Hr. unfold normalizeV. rewrite vscale_assoc.
  assert (Hs0 : sqrt (ip r r) <> 0).
  { intros E. apply Hr. apply sqrt_eq_0; [apply ip_nonneg | exact E]. }
  replace (sqrt (ip r r) * / sqrt (ip r r)) with 1 by (field; exact Hs0).
  symmetry. apply vscale_one.
Qed.

End GramSchmidtTheory.

(** ** Correctness of [GS] on linearly independent lists *)

Section GramSchmidtCorrect.

Context {V : Type} {ops : VectorOps V} {IPS : InnerProductSpace V}.

Lemma residual_nonzero (vs es : list V) (v : V) :
  lin_indep (vs ++ [v]) -> Forall (fun e => in_span e vs) es ->
  ip (residualV es v) (residualV es v) <> 0.
Proof.
  intros Hli Hout E. apply ip_definite in E.
  destruct (residualV_form es v) as (cs & Hl & Hc).
  rewrite Hc in E. apply vsub_zero_eq in E.
  apply (lin_indep_last vs v Hli).
  apply (in_span_trans v es vs); [| exact Hout].
  exists cs. split; [exact Hl | exact E].
Qed.

Lemma GS_post_step (vs es : list V) (v : V) :
  GS_post vs es -> ip (residualV es v) (residualV es v) <> 0 ->
  GS_post (vs ++ [v]) (es ++ [normalizeV (residualV es v)]).
Proof.
  intros (Hlen & Ho & Hin & Hout) Hr.
  set (r := residualV es v) in *.
  destruct (residualV_form es v) as (cs & Hl & Hc). fold r in Hc.
  assert (HL : forall bs, incl es bs -> in_span (lincomb cs es) bs).
  { intros bs Hbs. apply in_span_lincomb, Forall_forall.
    intros e He. apply in_span_In, Hbs, He. }
  repeat split.
  - rewrite !length_app. simpl. lia.
  - apply orthoV_snoc; [exact Ho | | apply normalizeV_unit, Hr].
    pose proof (residualV_orth es v Ho) as Hro. fold r in Hro.
    rewrite Forall_forall in *. intros e He.
    unfold normalizeV. rewrite ip_vscale_r, (ip_sym e r), (Hro e He). lra.
  - apply Forall_app. split.
    + eapply Forall_impl; [| exact Hin].
      intros a Ha. apply (in_span_incl a es); [apply incl_appl, incl_refl | exact Ha].
    + constructor; [| constructor].
      assert (Ev : v == vadd r (lincomb cs es)).
      { rewrite Hc. symmetry. apply vsub_vadd_cancel. }
      apply (proj2 (in_span_proper _ _ Ev _ _ eq_refl)).
      apply in_span_vadd.
      * apply (proj2 (in_span_proper _ _ (normalizeV_denormalise r Hr) _ _ eq_refl)).
        apply in_span_vscale, in_span_In, in_or_app. right. now left.
      * apply HL, incl_appl, incl_refl.
  - apply Forall_app. split.
    + eapply Forall_impl; [| exact Hout].
      intros a Ha. apply (in_span_incl a vs); [apply incl_appl, incl_refl | exact Ha].
    + constructor; [| constructor].
      unfold normalizeV. apply in_span_vscale. rewrite Hc.
      apply in_span_vsub.
      * apply in_span_In, in_or_app. right. now left.
      * apply (in_span_trans _ es); [apply HL, incl_refl |].
        eapply Forall_impl; [| exact Hout].
        intros a Ha. apply (in_span_incl a vs); [apply incl_appl, incl_refl | exact Ha].
Qed.

(** On a linearly independent list no division by zero happens: both variants
    return the same finite vectors, which satisfy [GS_post]. *)
Lemma GS_finite (vs : list V) :
  lin_indep vs ->
  exists es, GS (map Some vs) = map Some es /\
             GS_simultaneous (map Some vs) = map Some es /\
             GS_post vs es.
Proof.
  induction vs as [| v vs IH] using rev_ind; intros Hli.
  - exists []. repeat split; constructor.
  - destruct (IH (lin_indep_app_l vs [v] Hli)) as (es & HGS & Hsim & Hpost).
    assert (Hr : ip (residualV es v) (residualV es v) <> 0).
    { apply (residual_nonzero vs); [exact Hli | apply Hpost]. }
    exists (es ++ [normalizeV (residualV es v)]). split; [| split].
    + rewrite map_app. simpl. rewrite GS_snoc, HGS. apply GS_body_finite, Hr.
    + rewrite map_app. simpl. rewrite GS_simultaneous_snoc, Hsim.
      unfold GS_body_simultaneous. rewrite fold_simultaneous_Some.
      rewrite <- residualV_simultaneous_eq.
      * rewrite normalise_finite by exact Hr. now rewrite map_app.
      * apply Hpost.
      * apply Forall_forall. reflexivity.
    + apply GS_post_step; assumption.
Qed.

Lemma nth_map_Some (es : list V) (i : nat) :
  (i < length es)%nat -> nth i (map Some es) nan = Some (nth i es vzero).
Proof.
  intros Hi. rewrite (nth_indep _ nan (Some vzero)) by (now rewrite length_map).
  apply map_nth.
Qed.

Lemma orthoV_orthonormal (es : list V) : orthoV es -> orthonormal (map Some es).
Proof.
  intros Ho. split.
  - intros i j Hi Hj Hij. rewrite length_map in Hi, Hj.
    rewrite !nth_map_Some by assumption. simpl.
    rewrite (orthoV_nth es vzero i j Ho Hi Hj).
    destruct (Nat.eqb_spec i j); [contradiction | reflexivity].
  - intros i Hi. rewrite length_map in Hi.
    rewrite nth_map_Some by assumption. unfold norm. simpl.
    rewrite (orthoV_nth es vzero i i Ho Hi Hi), Nat.eqb_refl.
    now rewrite sqrt_1.
Qed.

(** C1. For a linearly independent input list, [GS] returns a list as long as
    its input, all of whose entries are finite vectors, and which is
    orthonormal under [inner]: two distinct output vectors have inner product
    exactly 0 and every output vector has norm exactly 1. *)
Theorem GS_orthonormal (vs : list V) :
  lin_indep vs ->
  length (GS (map Some vs)) = length vs /\
  all_finite (GS (map Some vs)) /\
  orthonormal (GS (map Some vs)).
Proof.
  intros Hli. destruct (GS_finite vs Hli) as (es & HGS & _ & Hlen & Ho & _).
  rewrite HGS. split; [| split].
  - rewrite length_map. exact Hlen.
  - now exists es.
  - apply orthoV_orthonormal, Ho.
Qed.

(** C2. For a linearly independent input list of length n and 1 <= j <= n, the
    first j outputs of [GS] are finite vectors [es] spanning the same subspace
    as the first j inputs: every one of the first j inputs is a linear
    combination of [es], every vector of [es] is a linear combination of the
    first j inputs, and so the two spans have the same elements. *)
Theorem GS_prefix_span (vs : list V) (j : nat) :
  lin_indep vs -> (1 <= j <= length vs)%nat ->
  exists es, firstn j (GS (map Some vs)) = map Some es /\
             length es = j /\
             Forall (fun v => in_span v es) (firstn j vs) /\
             Forall (fun e => in_span e (firstn j vs)) es /\
             forall w, in_span w es <-> in_span w (firstn j vs).
Proof.
  intros Hli Hj.
  assert (Hli' : lin_indep (firstn j vs)).
  { apply (lin_indep_app_l _ (skipn j vs)). now rewrite firstn_skipn. }
  destruct (GS_finite _ Hli') as (es & HGS & _ & Hlen & _ & Hin & Hout).
  exists es. repeat split; try assumption.
  - rewrite GS_firstn by (rewrite length_map; lia).
    rewrite firstn_map. exact HGS.
  - rewrite Hlen, length_firstn. lia.
  - intros Hw. apply (in_span_trans w es); assumption.
  - intros Hw. apply (in_span_trans w (firstn j vs)); assumption.
Qed.

(** C9. In exact arithmetic and on a linearly independent input list, [GS],
    which subtracts each projection from the running residual, returns the same
    list as the variant that computes every projection against the original
    vector. *)
Theorem GS_eq_simultaneous (vs : list V) :
  lin_indep vs -> GS (map Some vs) = GS_simultaneous (map Some vs).
Proof.
  intros Hli. destruct (GS_finite vs Hli) as (es & -> & -> & _). reflexivity.
Qed.

(** On a nonzero [v] followed by [2*v], the second residual is zero and its
    normalisation is [nan]. *)
Lemma GS_pair_dependent (v : V) :
  ~ v == vzero -> GS [Some v; Some (vscale 2 v)] = [Some (normalizeV v); nan].
Proof.
  intros Hv.
  assert (Hvv : ip v v <> 0).
  { intros E. apply Hv, ip_definite, E. }
  change (GS [Some v; Some (vscale 2 v)])
    with (GS_body (GS_body (map Some []) (Some v)) (Some (vscale 2 v))).
  rewrite GS_body_finite by exact Hvv. simpl app.
  change (residualV [] v) with v.
  rewrite GS_body_degenerate; [reflexivity |].
  assert (E : residualV [normalizeV v] (vscale 2 v) == vzero).
  { simpl. unfold projectV.
    assert (Hip : ip (vscale 2 v) (normalizeV v) = 2 * sqrt (ip v v)).
    { rewrite ip_vscale_l. f_equal. unfold normalizeV. rewrite ip_vscale_r.
      pose proof (sqrt_sqrt (ip v v) (ip_nonneg v)) as Hs.
      assert (Hs0 : sqrt (ip v v) <> 0) by (intros E0; rewrite E0 in Hs; lra).
      rewrite <- Hs at 2. field. exact Hs0. }
    rewrite Hip, <- vscale_assoc, <- (normalizeV_denormalise v Hvv).
    apply vsub_self. }
  rewrite E. apply ip_vzero_l.
Qed.

(** C4, as the code behaves. No error is raised on linearly dependent input:
    for a nonzero [v], the call [GS([v, 2*v])] returns a list of two values, the
    normalised [v] and, at index 1, [nan]; and whenever the norm of the residual
    of a step is zero, that step appends [nan] and the loop goes on, so that the
    output always has the length of the input. *)
Theorem GS_dependent_returns_nan :
  (forall v : V, ~ v == vzero ->
     call_GS [Some v; Some (vscale 2 v)] = Returns [Some (normalizeV v); nan]) /\
  (forall (e_list : list (option V)) (v : option V),
     norm (fold_left GS_project e_list v) = Some 0 ->
     GS_body e_list v = e_list ++ [nan]) /\
  (forall v_list : list (option V), length (GS v_list) = length v_list).
Proof.
  split; [| split].
  - intros v Hv. unfold call_GS. now rewrite GS_pair_dependent.
  - intros e_list v Hn. unfold GS_body.
    destruct (fold_left GS_project e_list v) as [r |]; [| discriminate].
    unfold norm, inner in *. simpl in *. injection Hn as Hn. rewrite Hn.
    destruct (Req_dec_T 0 0) as [_ | N]; [reflexivity | now elim N].
  - apply GS_length.
Qed.

End GramSchmidtCorrect.

(** *** Polynomials form a vector space *)

Section PolyLaws.

Lemma nth_nil_R (n : nat) : nth n (@nil R) 0 = 0.
Proof. destruct n; reflexivity. Qed.

Lemma nth_padd (p q : poly) (n : nat) :
  nth n (padd p q) 0 = nth n p 0 + nth n q 0.
Proof.
  revert q n. induction p as [| a p IH]; intros q n.
  - simpl padd. rewrite nth_nil_R. lra.
  - destruct q as [| b q].
    + simpl padd. rewrite nth_nil_R. lra.
    + destruct n as [| n]; simpl; [reflexivity | apply IH].
Qed.

Lemma nth_pscale (c : R) (p : poly) (n : nat) :
  nth n (pscale c p) 0 = c * nth n p 0.
Proof.
  revert n. induction p as [| a p IH]; intros n.
  - simpl pscale. rewrite nth_nil_R. lra.
  - destruct n as [| n]; simpl; [reflexivity | apply IH].
Qed.

Lemma nth_psub (p q : poly) (n : nat) :
  nth n (psub p q) 0 = nth n p 0 - nth n q 0.
Proof. unfold psub. rewrite nth_padd, nth_pscale. lra. Qed.

#[export] Instance Peq_equiv : Equivalence Peq.
Proof.
  split.
  - intros p n. reflexivity.
  - intros p q H n. symmetry. apply H.
  - intros p q r H1 H2 n. rewrite H1. apply H2.
Qed.

Lemma Peq_cons (a b : R) (p q : poly) : Peq (a :: p) (b :: q) <-> a = b /\ Peq p q.
Proof.
  split.
  - intros H. split; [apply (H 0%nat) | intros n; apply (H (S n))].
  - intros [-> H] [| n]; [reflexivity | apply H].
Qed.

Lemma Peq_nil_l (q : poly) : Peq [] q <-> Forall (fun c => c = 0) q.
Proof.
  split.
  - intros H. induction q as [| b q IH]; constructor.
    + symmetry. apply (H 0%nat).
    + apply IH. intros n. rewrite nth_nil_R.
      specialize (H (S n)). simpl in H. exact H.
  - intros H n. rewrite nth_nil_R. revert n.
    induction H as [| b q Hb _ IH]; intros [| n]; simpl; auto.
Qed.

Lemma peval_zeros (p : poly) (x : R) : Forall (fun c => c = 0) p -> peval p x = 0.
Proof.
  induction 1 as [| c p Hc _ IH]; simpl; [reflexivity |].
  rewrite Hc, IH. lra.
Qed.

Lemma peval_Peq (p q : poly) (x : R) : Peq p q -> peval p x = peval q x.
Proof.
  revert q. induction p as [| a p IH]; intros q H.
  - simpl. symmetry. apply peval_zeros, Peq_nil_l, H.
  - destruct q as [| b q].
    + apply peval_zeros, Peq_nil_l. symmetry. exact H.
    + apply Peq_cons in H. destruct H as [-> H]. simpl.
      now rewrite (IH q H).
Qed.

Lemma peval_padd (p q : poly) (x : R) :
  peval (padd p q) x = peval p x + peval q x.
Proof.
  revert q. induction p as [| a p IH]; intros q; simpl; [lra |].
  destruct q as [| b q]; simpl; [lra |]. rewrite IH. lra.
Qed.

Lemma peval_pscale (c : R) (p : poly) (x : R) :
  peval (pscale c p) x = c * peval p x.
Proof.
  induction p as [| a p IH]; simpl; [lra |]. rewrite IH. lra.
Qed.

Lemma peval_pmul (p q : poly) (x : R) :
  peval (pmul p q) x = peval p x * peval q x.
Proof.
  induction p as [| a p IH]; simpl; [lra |].
  rewrite peval_padd, peval_pscale. simpl. rewrite IH. lra.
Qed.

(** *** Integration is linear *)

Lemma integrate_from_zeros (k : nat) (p : poly) :
  Forall (fun c => c = 0) p -> integrate_from k p = 0.
Proof.
  intros H. revert k. induction H as [| c p Hc _ IH]; intros k; simpl;
    [reflexivity |].
  rewrite Hc, IH. unfold Rdiv. lra.
Qed.

Lemma integrate_from_Peq (k : nat) (p q : poly) :
  Peq p q -> integrate_from k p = integrate_from k q.
Proof.
  revert k q. induction p as [| a p IH]; intros k q H.
  - simpl. symmetry. apply integrate_from_zeros, Peq_nil_l, H.
  - destruct q as [| b q].
    + apply integrate_from_zeros, Peq_nil_l. symmetry. exact H.
    + apply Peq_cons in H. destruct H as [-> H]. simpl.
      now rewrite (IH (S k) q H).
Qed.

Lemma integrate_from_padd (k : nat) (p q : poly) :
  integrate_from k (padd p q) = integrate_from k p + integrate_from k q.
Proof.
  revert k q. induction p as [| a p IH]; intros k q; simpl; [lra |].
  destruct q as [| b q]; simpl; [lra |]. rewrite IH. unfold Rdiv. lra.
Qed.

Lemma integrate_from_pscale (k : nat) (c : R) (p : poly) :
  integrate_from k (pscale c p) = c * integrate_from k p.
Proof.
  revert k. induction p as [| a p IH]; intros k; simpl; [lra |].
  rewrite IH. unfold Rdiv. lra.
Qed.

End PolyLaws.

(** *** A polynomial is determined by its values *)

Section PolyRoots.

Lemma pbound_nonneg (p : poly) : 0 <= pbound p.
Proof.
  induction p as [| c p IH]; simpl; [lra |].
  pose proof (Rabs_pos c). lra.
Qed.

Lemma peval_bound (p : poly) (x : R) :
  0 <= x <= 1 -> Rabs (peval p x) <= pbound p.
Proof.
  intros Hx. induction p as [| c p IH]; simpl.
  - rewrite Rabs_R0. lra.
  - eapply Rle_trans; [apply Rabs_triang |].
    rewrite Rabs_mult, (Rabs_pos_eq x) by lra.
    pose proof (Rabs_pos (peval p x)). nra.
Qed.

Lemma dense_roots_zero (p : poly) :
  dense_roots p -> Forall (fun c => c = 0) p.
Proof.
  induction p as [| c0 q IH]; intros D; [constructor |].
  assert (Hc0 : c0 = 0).
  { destruct (Req_dec_T c0 0) as [E | N]; [exact E | exfalso].
    pose proof (pbound_nonneg q) as HM.
    assert (Habs : 0 < Rabs c0) by (apply Rabs_pos_lt, N).
    set (M := pbound q) in *.
    assert (Hb : 0 < Rabs c0 / (M + 1)).
    { apply Rdiv_lt_0_compat; lra. }
    destruct (D 0 (Rmin 1 (Rabs c0 / (M + 1)))) as (c & [Hc1 Hc2] & Hc);
      [lra | apply Rmin_glb_lt; lra | apply Rmin_l |].
    simpl in Hc.
    assert (Hc3 : c < 1) by (eapply Rlt_le_trans; [exact Hc2 | apply Rmin_l]).
    assert (Hc4 : c < Rabs c0 / (M + 1))
      by (eapply Rlt_le_trans; [exact Hc2 | apply Rmin_r]).
    pose proof (peval_bound q c (conj (Rlt_le _ _ Hc1) (Rlt_le _ _ Hc3))) as Hq.
    fold M in Hq.
    assert (E : Rabs c0 = c * Rabs (peval q c)).
    { replace c0 with (- (c * peval q c)) by lra.
      rewrite Rabs_Ropp, Rabs_mult, (Rabs_pos_eq c) by lra. reflexivity. }
    assert (Hlt : c * (M + 1) < Rabs c0).
    { apply (Rmult_lt_compat_r (M + 1)) in Hc4; [| lra].
      unfold Rdiv in Hc4. rewrite Rmult_assoc, Rinv_l, Rmult_1_r in Hc4 by lra.
      exact Hc4. }
    pose proof (Rabs_pos (peval q c)). nra. }
  subst c0. constructor; [reflexivity |]. apply IH.
  intros a b Ha Hab Hb. destruct (D a b Ha Hab Hb) as (c & Hc & Hr).
  exists c. split; [exact Hc |]. simpl in Hr. nra.
Qed.

Lemma Peq_of_peval (p q : poly) :
  (forall x, peval p x = peval q x) -> Peq p q.
Proof.
  intros H.
  assert (Z : Forall (fun c => c = 0) (psub p q)).
  { apply dense_roots_zero. intros a b _ Hab _. exists ((a + b) / 2).
    split; [lra |]. unfold psub. rewrite peval_padd, peval_pscale, H. lra. }
  apply Peq_nil_l in Z. intros n. specialize (Z n).
  rewrite nth_psub, nth_nil_R in Z. lra.
Qed.

End PolyRoots.

(** *** The integral of a square is positive *)

Section PolyIntegral.

Lemma derivable_pt_lim_eq (f g : R -> R) (x l l' : R) :
  (forall y, f y = g y) -> l = l' ->
  derivable_pt_lim f x l -> derivable_pt_lim g x l'.
Proof.
  intros Hfg <- H eps Heps. destruct (H eps Heps) as [d Hd].
  exists d. intros h Hh Hhd. rewrite <- !Hfg. now apply Hd.
Qed.

Lemma pint_from_derivative (q : poly) (k : nat) (x : R) :
  derivable_pt_lim (fun y => y ^ S k * peval (pint_from k q) y) x
                   (x ^ k * peval q x).
Proof.
  revert k. induction q as [| c q IH]; intros k.
  - apply (derivable_pt_lim_eq (fct_cte 0) _ x 0).
    + intros y. unfold fct_cte. simpl. lra.
    + simpl. lra.
    + apply derivable_pt_lim_const.
  - pose proof (derivable_pt_lim_scal _ (c / INR (S k)) x _
                  (derivable_pt_lim_pow x (S k))) as H1.
    pose proof (derivable_pt_lim_plus _ _ x _ _ H1 (IH (S k))) as H2.
    assert (Hk : INR (S k) <> 0) by (apply not_0_INR; lia).
    refine (derivable_pt_lim_eq _ _ x _ _ _ _ H2).
    + intros y. unfold plus_fct, mult_real_fct. simpl. field. exact Hk.
    + simpl Init.Nat.pred. simpl peval. simpl pow. field. exact Hk.
Qed.

Lemma primitive_derivative (q : poly) (x : R) :
  derivable_pt_lim (primitive q) x (peval q x).
Proof.
  refine (derivable_pt_lim_eq _ _ x _ _ _ _ (pint_from_derivative q 0 x)).
  - intros y. unfold primitive. simpl. lra.
  - simpl. lra.
Qed.

Lemma integrate_from_pint (k : nat) (q : poly) :
  integrate_from k q = peval (pint_from k q) 1.
Proof.
  revert k. induction q as [| c q IH]; intros k; simpl; [reflexivity |].
  rewrite IH. lra.
Qed.

Lemma integrate01_primitive (q : poly) :
  integrate01 q = primitive q 1 - primitive q 0.
Proof.
  unfold integrate01, primitive. rewrite integrate_from_pint. lra.
Qed.

Lemma primitive_increasing (q : poly) (a b : R) :
  (forall x, 0 <= peval q x) -> a <= b -> primitive q a <= primitive q b.
Proof.
  intros Hq [Hab | ->]; [| lra].
  destruct (MVT_cor2 (primitive q) (peval q) a b Hab
              (fun c _ => primitive_derivative q c)) as (c & Hc & _).
  specialize (Hq c). nra.
Qed.

Lemma peval_square_nonneg (p : poly) (x : R) : 0 <= peval (pmul p p) x.
Proof. rewrite peval_pmul. nra. Qed.

Lemma poly_inner_nonneg (p : poly) : 0 <= poly_inner p p.
Proof.
  unfold poly_inner. rewrite integrate01_primitive.
  pose proof (primitive_increasing (pmul p p) 0 1 (peval_square_nonneg p)).
  lra.
Qed.

Lemma poly_inner_definite (p : poly) : poly_inner p p = 0 -> Peq p [].
Proof.
  unfold poly_inner. rewrite integrate01_primitive. intros H0.
  symmetry. apply Peq_nil_l, dense_roots_zero.
  intros a b Ha Hab Hb.
  pose proof (primitive_increasing (pmul p p) 0 a (peval_square_nonneg p) Ha) as H1.
  pose proof (primitive_increasing (pmul p p) b 1 (peval_square_nonneg p) Hb) as H2.
  destruct (MVT_cor2 (primitive (pmul p p)) (peval (pmul p p)) a b Hab
              (fun c _ => primitive_derivative (pmul p p) c)) as (c & Hc & Hin).
  exists c. split; [exact Hin |].
  rewrite peval_pmul in Hc.
  assert (Hsq : peval p c * peval p c * (b - a) <= 0) by lra.
  assert (Hsq' : peval p c * peval p c <= 0).
  { destruct (Rle_or_lt (peval p c * peval p c) 0) as [Hle | Hlt]; [exact Hle |].
    exfalso.
    assert (0 < peval p c * peval p c * (b - a))
      by (apply Rmult_lt_0_compat; lra).
    lra. }
  nra.
Qed.

End PolyIntegral.

(** *** Polynomials with [integrate(f*g,(x,0,1))] are an inner-product space *)

Lemma poly_inner_Peq (p p' q q' : poly) :
  Peq p p' -> Peq q q' -> poly_inner p q = poly_inner p' q'.
Proof.
  intros Hp Hq. apply integrate_from_Peq, Peq_of_peval. intros x.
  now rewrite !peval_pmul, (peval_Peq p p' x Hp), (peval_Peq q q' x Hq).
Qed.

#[export] Instance poly_space : InnerProductSpace poly.
Proof.
  split; simpl.
  - exact Peq_equiv.
  - intros p p' Hp q q' Hq n. now rewrite !nth_padd, (Hp n), (Hq n).
  - intros p p' Hp q q' Hq n. now rewrite !nth_psub, (Hp n), (Hq n).
  - intros a a' <- q q' Hq n. now rewrite !nth_pscale, (Hq n).
  - intros p p' Hp q q' Hq. now apply poly_inner_Peq.
  - intros u v n. rewrite !nth_padd. lra.
  - intros u v w n. rewrite !nth_padd. lra.
  - intros v n. reflexivity.
  - intros v n. rewrite nth_padd, nth_pscale, nth_nil_R. lra.
  - intros u v n. reflexivity.
  - intros v n. rewrite nth_pscale. lra.
  - intros a b v n. rewrite !nth_pscale. lra.
  - intros a u v n. rewrite nth_pscale, !nth_padd, !nth_pscale. lra.
  - intros a b v n. rewrite nth_padd, !nth_pscale. lra.
  - intros u v. apply integrate_from_Peq, Peq_of_peval. intros x.
    rewrite !peval_pmul. lra.
  - intros u v w. unfold poly_inner, integrate01.
    rewrite <- integrate_from_padd. apply integrate_from_Peq, Peq_of_peval.
    intros x. rewrite peval_padd, !peval_pmul, peval_padd. lra.
  - intros a u v. unfold poly_inner, integrate01.
    rewrite <- integrate_from_pscale. apply integrate_from_Peq, Peq_of_peval.
    intros x. rewrite peval_pscale, !peval_pmul, peval_pscale. lra.
  - exact poly_inner_nonneg.
  - exact poly_inner_definite.
Qed.

Lemma inv_sqrt_eq (x c : R) : 0 < c -> x * (c * c) = 1 -> / sqrt x = c.
Proof.
  intros Hc Hx.
  assert (E : x = / c * / c) by (apply (Rmult_eq_reg_r (c * c)); [| nra];
                                 rewrite Hx; field; lra).
  rewrite E, sqrt_square; [field; lra |].
  apply Rlt_le, Rinv_0_lt_compat, Hc.
Qed.

Lemma sqrt3_sq : sqrt 3 * sqrt 3 = 3.
Proof. apply sqrt_sqrt. lra. Qed.

Lemma sqrt5_sq : sqrt 5 * sqrt 5 = 5.
Proof. apply sqrt_sqrt. lra. Qed.

Lemma sqrt3_pos : 0 < sqrt 3.
Proof. apply sqrt_lt_R0. lra. Qed.

Lemma sqrt5_pos : 0 < sqrt 5.
Proof. apply sqrt_lt_R0. lra. Qed.

(** One pass of the outer loop on polynomials, with the residual [r] and the
    factor [c = 1/norm(r)] given. *)
Lemma GS_body_poly (es : list poly) (v r : poly) (c : R) :
  residualV es v = r -> 0 < c -> poly_inner r r * (c * c) = 1 ->
  GS_body (map Some es) (Some v) = map Some es ++ [Some (pscale c r)].
Proof.
  intros Hr Hc Hn.
  assert (Hnz : ip (residualV es v) (residualV es v) <> 0).
  { rewrite Hr. simpl. intros E. rewrite E in Hn. lra. }
  rewrite (GS_body_finite es v Hnz), map_app, Hr. simpl.
  unfold normalizeV. simpl. now rewrite (inv_sqrt_eq _ c Hc Hn).
Qed.

Lemma residual_step_2 : residualV [const 1] X = psub X (const (1 / 2)).
Proof. poly_unfold. coefficientwise. field. Qed.

Lemma residual_step_3 :
  residualV [const 1; e_2] (pmul X X) = padd (psub (pmul X X) X) (const (1 / 6)).
Proof.
  poly_unfold. pose proof sqrt3_sq as Hs. set (s := sqrt 3) in *.
  coefficientwise; field_simplify; nra.
Qed.

(** C3. On the notebook's input [1, x, x**2], with
    [inner(f,g) = integrate(f*g,(x,0,1))], [GS] returns exactly the list
    [1, 2*sqrt(3)*(x - 1/2), 6*sqrt(5)*(x**2 - x + 1/6)], in that order. *)
Theorem GS_axler_6B5 : GS v_list = [Some (const 1); Some e_2; Some e_3].
Proof.
  change (GS v_list)
    with (GS_body (GS_body (GS_body (map Some []) (Some (const 1))) (Some X))
                  (Some (pmul X X))).
  rewrite (GS_body_poly [] (const 1) (const 1) 1 eq_refl);
    [| lra | poly_unfold; field].
  replace (pscale 1 (const 1)) with (const 1)
    by (unfold const; simpl; coefficientwise; lra).
  change (map Some [] ++ [Some (const 1)]) with (map Some [const 1]).
  rewrite (GS_body_poly _ _ _ (2 * sqrt 3) residual_step_2).
  - fold e_2. change (map Some [const 1] ++ [Some e_2]) with (map Some [const 1; e_2]).
    rewrite (GS_body_poly _ _ _ (6 * sqrt 5) residual_step_3).
    + reflexivity.
    + pose proof sqrt5_pos. lra.
    + replace (6 * sqrt 5 * (6 * sqrt 5)) with (36 * (sqrt 5 * sqrt 5)) by ring.
      rewrite sqrt5_sq. poly_unfold. field.
  - pose proof sqrt3_pos. lra.
  - replace (2 * sqrt 3 * (2 * sqrt 3)) with (4 * (sqrt 3 * sqrt 3)) by ring.
    rewrite sqrt3_sq. poly_unfold. field.
Qed.

(** The monomials [1, x, x**2] are linearly independent. *)
Lemma lin_indep_monomials : lin_indep [const 1; X; pmul X X].
Proof.
  intros cs Hlen H.
  destruct cs as [| a [| b [| c [| d cs]]]]; try discriminate.
  pose proof (H 0%nat) as H0. pose proof (H 1%nat) as H1.
  pose proof (H 2%nat) as H2.
  unfold X, const in *. simpl in H0, H1, H2.
  repeat constructor; lra.
Qed.

Lemma X_nonzero : ~ X == vzero.
Proof. intros H. specialize (H 1%nat). simpl in H. lra. Qed.

Lemma GS_orthonormal_witness :
  lin_indep [const 1; X; pmul X X] /\
  length (GS v_list) = 3%nat /\
  all_finite (GS v_list) /\
  orthonormal (GS v_list).
Proof.
  split; [exact lin_indep_monomials |].
  exact (GS_orthonormal [const 1; X; pmul X X] lin_indep_monomials).
Defined.

Lemma GS_prefix_span_witness :
  exists es, firstn 2 (GS v_list) = map Some es /\
             length es = 2%nat /\
             Forall (fun v => in_span v es) [const 1; X] /\
             Forall (fun e => in_span e [const 1; X]) es /\
             forall w, in_span w es <-> in_span w [const 1; X].
Proof.
  apply (GS_prefix_span [const 1; X; pmul X X] 2 lin_indep_monomials).
  simpl. lia.
Defined.

Lemma GS_eq_simultaneous_witness : GS v_list = GS_simultaneous v_list.
Proof.
  exact (GS_eq_simultaneous [const 1; X; pmul X X] lin_indep_monomials).
Defined.

Lemma const_1_nonzero : ~ const 1 == vzero.
Proof. intros H. specialize (H 0%nat). simpl in H. lra. Qed.

Lemma GS_dependent_witness :
  call_GS [Some (const 1); Some (pscale 2 (const 1))]
  = Returns [Some (normalizeV (const 1)); nan].
Proof.
  exact (proj1 (GS_dependent_returns_nan (V := poly)) (const 1) const_1_nonzero).
Defined.

(** C4 fails as stated: on [[x, 2*x]] the call returns, with [nan] at index 1,
    and raises nothing. *)
Lemma GS_dependent_no_error :
  call_GS [Some X; Some (pscale 2 X)] = Returns [Some (normalizeV X); nan] /\
  call_GS [Some X; Some (pscale 2 X)] <> Raises (DegenerateInputError 1).
Proof.
  split; [| discriminate].
  unfold call_GS. f_equal. exact (GS_pair_dependent X X_nonzero).
Qed.

(** *** Sorting *)

Section Sorting.


Lemma insert_sorted_hd (a x : R) (l : list R) :
  a <= x -> HdRel Rle a l -> HdRel Rle a (insert_sorted x l).
Proof.
  intros Hax Hl. destruct l as [| y l]; simpl; [now constructor |].
  destruct (Rle_lt_dec x y); constructor; [exact Hax |].
  now inversion Hl.
Qed.

Lemma insert_sorted_sorted (x : R) (l : list R) :
  Sorted Rle l -> Sorted Rle (insert_sorted x l).
Proof.
  induction 1 as [| y l Hs IH Hhd]; simpl; [repeat constructor |].
  destruct (Rle_lt_dec x y) as [Hle | Hlt].
  - constructor; [now constructor | now constructor].
  - constructor; [exact IH |]. apply insert_sorted_hd; [lra | exact Hhd].
Qed.


Lemma np_sort_sorted (l : list R) : Sorted Rle (np_sort l).
Proof.
  induction l as [| x l IH]; simpl; [constructor |].
  apply insert_sorted_sorted, IH.
Qed.

End Sorting.

(** *** The loop *)

Section QRLoop.

Variable qr : matrix -> matrix * matrix.
Variable eps : R.

Lemma converged_iff (A : matrix) : converged eps A <-> ~ keeps_iterating eps A.
Proof.
  unfold converged, keeps_iterating. split; intros H.
  - apply Rle_not_gt, H.
  - apply Rnot_gt_le, H.
Qed.

(** The loop exits exactly at the first iterate that meets the convergence
    predicate. *)
Lemma qr_loop_spec (fuel : nat) (A A' : matrix) :
  qr_loop qr eps fuel A = Some A' <->
  exists k, (k < fuel)%nat /\ A' = iterate qr k A /\ converged eps A' /\
            forall j, (j < k)%nat -> keeps_iterating eps (iterate qr j A).
Proof.
  revert A. induction fuel as [| fuel IH]; intros A; simpl.
  - split; [discriminate | intros (k & Hk & _); lia].
  - destruct (Rgt_dec (np_norm (np_tril_below A)) (eps * np_norm A)) as [Hgt | Hle].
    + rewrite IH. split.
      * intros (k & Hk & -> & Hc & Hj). exists (S k).
        repeat split; [lia | exact Hc |].
        intros [| j] Hlt; [exact Hgt | apply Hj; lia].
      * intros (k & Hk & -> & Hc & Hj). destruct k as [| k].
        -- apply converged_iff in Hc. contradiction.
        -- exists k. repeat split; [lia | exact Hc |].
           intros j Hlt. apply (Hj (S j)). lia.
    + split.
      * intros [= <-]. exists 0%nat.
        repeat split; [lia | now apply converged_iff | intros j Hj; lia].
      * intros (k & Hk & -> & Hc & Hj). destruct k as [| k]; [reflexivity |].
        exfalso. apply Hle. apply (Hj 0%nat). lia.
Qed.

Lemma qr_loop_running (fuel : nat) (A : matrix) :
  (forall k, (k < fuel)%nat -> keeps_iterating eps (iterate qr k A)) ->
  qr_loop qr eps fuel A = None.
Proof.
  intros H. destruct (qr_loop qr eps fuel A) as [A' |] eqn:E; [| reflexivity].
  apply qr_loop_spec in E. destruct E as (k & Hk & -> & Hc & _).
  apply converged_iff in Hc. exfalso. apply Hc, H, Hk.
Qed.

End QRLoop.

(** *** The quarter turns *)

Lemma shape_2 (A : matrix) : shape 2 A -> exists a b c d, A = [[a; b]; [c; d]].
Proof.
  intros [Hl Hr].
  destruct A as [| r1 [| r2 [| r3 A]]]; try discriminate.
  inversion Hr as [| ? ? H1 Hr']; subst. inversion Hr' as [| ? ? H2 _]; subst.
  destruct r1 as [| a [| b [| ? ?]]]; try discriminate.
  destruct r2 as [| c [| d [| ? ?]]]; try discriminate.
  now exists a, b, c, d.
Qed.

(** Whatever factorisation [np.linalg.qr] returns for a quarter turn, [R@Q]
    is a quarter turn again. *)
Lemma quarter_turn_step (t : R) (Q Rm : matrix) :
  t * t = 1 -> qr_contract 2 (quarter_turn t) Q Rm ->
  exists t', t' * t' = 1 /\ matmul Rm Q = quarter_turn t'.
Proof.
  intros Ht (HQ & HR & Horth & Hup & Hprod).
  destruct (shape_2 Q HQ) as (p & q & r & s & ->).
  destruct (shape_2 Rm HR) as (a & b & c & d & ->).
  unfold quarter_turn in *. cbn in Horth, Hup, Hprod.
  injection Horth as O11 O12 O21 O22.
  injection Hprod as P11 P12 P21 P22.
  assert (Hc : c = 0) by nra.
  subst c.
  assert (Ha : a <> 0) by (intros ->; nra).
  assert (Hp : p = 0).
  { destruct (Rmult_integral p a) as [E | E]; [lra | exact E | contradiction]. }
  subst p.
  assert (Hr1 : r * r = 1) by lra.
  assert (Hr0 : r <> 0) by (intros ->; lra).
  assert (Hs : s = 0).
  { destruct (Rmult_integral r s) as [E | E]; [lra | contradiction | exact E]. }
  subst s.
  assert (Hq1 : q * q = 1) by lra.
  assert (Hb : b = 0).
  { destruct (Rmult_integral r b) as [E | E]; [lra | contradiction | exact E]. }
  subst b.
  assert (Ea : a = - t * r).
  { apply (Rmult_eq_reg_l r); [| exact Hr0].
    replace (r * (- t * r)) with (- t * (r * r)) by ring. rewrite Hr1. lra. }
  assert (Ed : d = t * q).
  { apply (Rmult_eq_reg_l q); [| intros ->; lra].
    replace (q * (t * q)) with (t * (q * q)) by ring. rewrite Hq1. lra. }
  exists (a * q). split.
  - subst a. replace (- t * r * q * (- t * r * q))
      with ((t * t) * (r * r) * (q * q)) by ring.
    rewrite Ht, Hr1, Hq1. lra.
  - cbn. subst a d. entrywise; ring.
Qed.

Lemma sqrt2_lt_2 : sqrt 2 < 2.
Proof.
  pose proof (sqrt_sqrt 2 ltac:(lra)) as H.
  pose proof (sqrt_pos 2) as Hp.
  destruct (Rlt_le_dec (sqrt 2) 2) as [Hlt | Hge]; [exact Hlt | nra].
Qed.

Lemma quarter_turn_iterating (eps t : R) :
  eps * sqrt 2 < 1 -> t * t = 1 -> keeps_iterating eps (quarter_turn t).
Proof.
  intros He Ht. unfold keeps_iterating, np_norm, quarter_turn. cbn.
  replace (0 * 0 + (0 * 0 + 0) + (- t * - t + (0 * 0 + 0) + 0)) with 1 by lra.
  replace (0 * 0 + (t * t + 0) + (- t * - t + (0 * 0 + 0) + 0)) with 2 by lra.
  rewrite sqrt_1. lra.
Qed.

Lemma quarter_turn_iterates (qr : matrix -> matrix * matrix) (k : nat) (t : R) :
  qr_contract_on_quarter_turns qr -> t * t = 1 ->
  exists t', t' * t' = 1 /\ iterate qr k (quarter_turn t) = quarter_turn t'.
Proof.
  intros Hqr. revert t. induction k as [| k IH]; intros t Ht.
  - exists t. split; [exact Ht | reflexivity].
  - simpl. unfold qr_step. specialize (Hqr t Ht).
    destruct (qr (quarter_turn t)) as [Q Rm]. simpl in Hqr.
    destruct (quarter_turn_step t Q Rm Ht Hqr) as (t' & Ht' & ->).
    apply IH, Ht'.
Qed.

Lemma quarter_turn_loop_runs (qr : matrix -> matrix * matrix) (eps : R) (fuel : nat) :
  qr_contract_on_quarter_turns qr -> eps * sqrt 2 < 1 ->
  qr_loop qr eps fuel (quarter_turn 1) = None.
Proof.
  intros Hqr He. apply qr_loop_running. intros k _.
  destruct (quarter_turn_iterates qr k 1 Hqr ltac:(lra)) as (t' & Ht' & ->).
  apply quarter_turn_iterating; assumption.
Qed.

Lemma qr_orthogonal_contract : qr_contract_on_quarter_turns qr_orthogonal.
Proof.
  intros t Ht. unfold qr_orthogonal, quarter_turn. simpl.
  repeat split; try (repeat constructor); cbn.
  - entrywise; nra.
  - lra.
  - entrywise; ring.
Qed.

Lemma epsilon_small : epsilon * sqrt 2 < 1.
Proof. pose proof sqrt2_lt_2. pose proof (sqrt_pos 2). unfold epsilon. nra. Qed.

(** *** A run of the cell on a diagonal array *)

Lemma qr_loop_diag_2_1 : qr_loop qr_upper epsilon 1 diag_2_1 = Some diag_2_1.
Proof.
  simpl. destruct (Rgt_dec _ _) as [Hgt | _]; [exfalso | reflexivity].
  unfold np_norm, diag_2_1 in Hgt. cbn in Hgt.
  replace (0 * 0 + (0 * 0 + 0) + (0 * 0 + (0 * 0 + 0) + 0)) with 0 in Hgt by lra.
  rewrite sqrt_0 in Hgt.
  pose proof (sqrt_pos (2 * 2 + (0 * 0 + 0) + (0 * 0 + (1 * 1 + 0) + 0))) as Hp.
  unfold epsilon in Hgt. nra.
Qed.

Lemma np_sort_2_1 : np_sort [2; 1] = [1; 2].
Proof.
  simpl. destruct (Rle_lt_dec 2 1) as [Hle | _]; [lra | reflexivity].
Qed.

Lemma qr_cell_diag_2_1 : qr_cell qr_upper epsilon 1 diag_2_1 = Some [1; 2].
Proof.
  unfold qr_cell. rewrite qr_loop_diag_2_1. unfold option_map. f_equal.
  exact np_sort_2_1.
Qed.

(** *** A run of the cell on an array that is not square *)

Lemma qr_cell_row_1_2_3 (qr : matrix -> matrix * matrix) :
  qr_cell qr epsilon 1 row_1_2_3 = Some [1].
Proof.
  unfold qr_cell. simpl qr_loop.
  destruct (Rgt_dec _ _) as [Hgt | _]; [exfalso | reflexivity].
  unfold np_norm, row_1_2_3 in Hgt. cbn in Hgt.
  replace (0 * 0 + (0 * 0 + (0 * 0 + 0)) + 0) with 0 in Hgt by lra.
  rewrite sqrt_0 in Hgt.
  pose proof (sqrt_pos (1 * 1 + (2 * 2 + (3 * 3 + 0)) + 0)) as Hp.
  unfold epsilon in Hgt. nra.
Qed.

(** ** The claims about input validation and the QR-algorithm cell *)

(** C5, as the code behaves. Nothing validates its input: [GS] called on the
    empty list returns the empty list, no call of [GS] ends in
    InvalidArgumentError, and the QR loop run on the array [[1, 2, 3]], which
    is not square, exits at once and reports [[1]]. *)
Theorem no_input_validation
  (V : Type) (ops : VectorOps V) (qr : matrix -> matrix * matrix) :
  call_GS (@nil (option V)) = Returns [] /\
  (forall v_list : list (option V), call_GS v_list <> Raises InvalidArgumentError) /\
  qr_cell qr epsilon 1 row_1_2_3 = Some [1].
Proof.
  split; [reflexivity | split; [discriminate | apply qr_cell_row_1_2_3]].
Qed.

(** C5 fails as stated: on the empty list the call of [GS] returns the empty
    list, and on an array that is not square the cell reports a result. *)
Lemma GS_empty_no_error :
  call_GS (@nil (option poly)) = Returns [] /\
  call_GS (@nil (option poly)) <> Raises InvalidArgumentError /\
  qr_cell qr_upper epsilon 1 row_1_2_3 = Some [1].
Proof.
  split; [reflexivity | split; [discriminate | apply qr_cell_row_1_2_3]].
Qed.



(** C8, as the code behaves. The loop has no iteration bound and raises no
    NonConvergenceError: it exits exactly at the first iterate that meets the
    convergence predicate, and on the quarter turn [[0, 1], [-1, 0]], whose
    eigenvalues are complex conjugates, it never exits, whatever
    factorisation meeting its contract [np.linalg.qr] returns. *)
Theorem qr_loop_unbounded (qr : matrix -> matrix * matrix) (eps : R) :
  qr_contract_on_quarter_turns qr -> eps * sqrt 2 < 1 ->
  (forall fuel, qr_loop qr eps fuel (quarter_turn 1) = None) /\
  (forall fuel A A',
      qr_loop qr eps fuel A = Some A' <->
      exists k, (k < fuel)%nat /\ A' = iterate qr k A /\ converged eps A' /\
                forall j, (j < k)%nat -> keeps_iterating eps (iterate qr j A)).
Proof.
  intros Hqr He. split.
  - intros fuel. now apply quarter_turn_loop_runs.
  - apply qr_loop_spec.
Qed.

Lemma qr_loop_unbounded_witness :
  qr_loop qr_orthogonal epsilon 1000 (quarter_turn 1) = None.
Proof.
  exact (proj1 (qr_loop_unbounded qr_orthogonal epsilon
                  qr_orthogonal_contract epsilon_small) 1000%nat).
Defined.

(** C8 fails as stated: on the quarter turn no number of iterations makes the
    loop exit. *)
Lemma qr_loop_runs_forever :
  ~ exists fuel A', qr_loop qr_orthogonal epsilon fuel (quarter_turn 1) = Some A'.
Proof.
  intros (fuel & A' & H).
  rewrite (quarter_turn_loop_runs qr_orthogonal epsilon fuel
             qr_orthogonal_contract epsilon_small) in H.
  discriminate.
Qed.

(** C10. Whenever the loop exits, the sequence the cell reports is in ascending
    order. *)
Theorem qr_cell_sorted
  (qr : matrix -> matrix * matrix) (eps : R) (fuel : nat) (A : matrix)
  (out : list R) :
  qr_cell qr eps fuel A = Some out -> Sorted Rle out.
Proof.
  unfold qr_cell. intros H.
  destruct (qr_loop qr eps fuel A) as [A' |]; [| discriminate].
  injection H as <-. apply np_sort_sorted.
Qed.

Lemma qr_cell_sorted_witness :
  qr_cell qr_upper epsilon 1 diag_2_1 = Some [1; 2] /\ Sorted Rle [1; 2].
Proof.
  split; [exact qr_cell_diag_2_1 |].
  exact (qr_cell_sorted qr_upper epsilon 1 diag_2_1 [1; 2] qr_cell_diag_2_1).
Defined.

(** ** One step of the QR algorithm is a similarity transform *)

Module QRSimilarity.

Set Warnings "-notation-overridden,-ambiguous-paths".
Import mathcomp.boot.boot mathcomp.algebra.algebra.
Import GRing.Theory.
Import QRMatrix.
Local Open Scope ring_scope.

Section Similarity.

Variable F : fieldType.
Variable n : nat.
Variable qr : 'M[F]_n -> 'M[F]_n * 'M[F]_n.

Lemma orthonormal_unit (Q : 'M[F]_n) : Q^T *m Q = 1%:M -> Q \in unitmx.
Proof. by case/mulmx1_unit. Qed.

Lemma orthonormal_inv (Q : 'M[F]_n) : Q^T *m Q = 1%:M -> invmx Q = Q^T.
Proof.
move=> HQ; have Qu := orthonormal_unit Q HQ.
by rw -[LHS]mul1mx -HQ -mulmxA mulmxV // mulmx1.
Qed.

Lemma char_poly_conj (A Q : 'M[F]_n) :
  Q \in unitmx -> char_poly (invmx Q *m A *m Q) = char_poly A.
Proof.
move=> Qu; rw /char_poly /char_poly_mx.
have PP : map_mx polyC (invmx Q) *m map_mx polyC Q = 1%:M.
  by rw -map_mxM mulVmx // map_mx1.
have -> : 'X%:M - map_mx polyC (invmx Q *m A *m Q)
          = map_mx polyC (invmx Q) *m ('X%:M - map_mx polyC A) *m map_mx polyC Q.
  rw mulmxBr mulmxBl !map_mxM; congr (_ - _).
  by rw mul_mx_scalar -scalemxAl PP scalemx1.
by rw !det_mulmx mulrAC -det_mulmx PP det1 mul1r.
Qed.

Lemma step_similar (A Q R : 'M[F]_n) :
  qr_factors A Q R -> R *m Q = invmx Q *m A *m Q.
Proof.
case=> HQ HA; have Qu := orthonormal_unit Q HQ.
by rw -HA mulKmx.
Qed.

Lemma step_invariants (A Q R : 'M[F]_n) :
  qr_factors A Q R ->
  [/\ R *m Q = invmx Q *m A *m Q,
      char_poly (R *m Q) = char_poly A,
      \tr (R *m Q) = \tr A &
      \det (R *m Q) = \det A].
Proof.
move=> HF; have E := step_similar A Q R HF; case: HF => HQ HA.
have Qu := orthonormal_unit Q HQ.
split=> //.
- by rw E char_poly_conj.
- by rw mxtrace_mulC HA.
- by rw det_mulmx mulrC -det_mulmx HA.
Qed.

Lemma qr_step_mxE (A : 'M[F]_n) : qr_step_mx qr A = (qr A).2 *m (qr A).1.
Proof. by rw /qr_step_mx; case: (qr A). Qed.

Lemma iterate_mxS (k : nat) (A : 'M[F]_n) :
  iterate_mx qr k.+1 A = (qr (iterate_mx qr k A)).2 *m (qr (iterate_mx qr k A)).1.
Proof. by rw -qr_step_mxE. Qed.

Lemma iterate_invariants (A : 'M[F]_n) (k : nat) :
  (forall j, (j < k)%N -> qr_factors_at qr (iterate_mx qr j A)) ->
  [/\ char_poly (iterate_mx qr k A) = char_poly A,
      \tr (iterate_mx qr k A) = \tr A &
      \det (iterate_mx qr k A) = \det A].
Proof.
elim: k => [|k IH] Hqr; first by split.
have [|Hc Ht Hd] := IH; first by move=> j jk; apply: Hqr; apply: ltnW.
have [_ Hc' Ht' Hd'] := step_invariants _ _ _ (Hqr k (ltnSn k)).
by rw iterate_mxS Hc' Ht' Hd'.
Qed.

(** C6. Every step of the QR iteration is a similarity transform: as long as
    [np.linalg.qr] returns an orthonormal [Q_j] and an [R_j] with
    [Q_j@R_j = A_j], the next iterate [A_(k+1) = R_k@Q_k] is
    [Q_k^-1 @ A_k @ Q_k], where [Q_k^-1] is the transpose of [Q_k], and it has
    the characteristic polynomial, hence the eigenvalues, the trace and the
    determinant of the original [A]. *)
Theorem qr_iteration_similarity (A : 'M[F]_n) (k : nat) :
  (forall j, (j <= k)%N -> qr_factors_at qr (iterate_mx qr j A)) ->
  let Ak := iterate_mx qr k A in
  let Q := (qr Ak).1 in
  [/\ iterate_mx qr k.+1 A = invmx Q *m Ak *m Q /\ invmx Q = Q^T,
      char_poly (iterate_mx qr k.+1 A) = char_poly A,
      (forall a, eigenvalue (iterate_mx qr k.+1 A) a = eigenvalue A a),
      \tr (iterate_mx qr k.+1 A) = \tr A &
      \det (iterate_mx qr k.+1 A) = \det A].
Proof.
move=> Hqr Ak Q.
have [Hc Ht Hd] : [/\ char_poly (iterate_mx qr k.+1 A) = char_poly A,
      \tr (iterate_mx qr k.+1 A) = \tr A &
      \det (iterate_mx qr k.+1 A) = \det A].
  by apply: iterate_invariants => j; rw ltnS; apply: Hqr.
split=> //.
- have HF := Hqr k (leqnn k); split; last by apply: orthonormal_inv; case: HF.
  by rw iterate_mxS; exact: step_similar HF.
- by move=> a; rw !eigenvalue_root_char Hc.
Qed.

End Similarity.

Lemma quarter_turn_mx_orthonormal : quarter_turn_mx^T *m quarter_turn_mx = 1%:M.
Proof.
apply/matrixP => i j; rw !mxE !big_ord_recl big_ord0 !mxE /=.
by case: i => [[|[|i]] Hi] //; case: j => [[|[|j]] Hj].
Qed.

Lemma iterate_quarter_turn_mx (k : nat) :
  iterate_mx qr_orthogonal_mx k quarter_turn_mx = quarter_turn_mx.
Proof. by elim: k => [//|k IH]; rw iterate_mxS IH /= mul1mx. Qed.

Lemma qr_orthogonal_mx_factors (j : nat) :
  qr_factors_at qr_orthogonal_mx (iterate_mx qr_orthogonal_mx j quarter_turn_mx).
Proof.
rw iterate_quarter_turn_mx; split; rw /= ?mulmx1 //.
exact: quarter_turn_mx_orthonormal.
Qed.

Lemma qr_iteration_similarity_witness :
  [/\ char_poly (iterate_mx qr_orthogonal_mx 4 quarter_turn_mx)
      = char_poly quarter_turn_mx,
      \tr (iterate_mx qr_orthogonal_mx 4 quarter_turn_mx) = \tr quarter_turn_mx &
      \det (iterate_mx qr_orthogonal_mx 4 quarter_turn_mx) = \det quarter_turn_mx].
Proof.
have [_ Hc _ Ht Hd] :=
  qr_iteration_similarity _ _ qr_orthogonal_mx quarter_turn_mx 3
    (fun j _ => qr_orthogonal_mx_factors j).
by split.
Defined.

End QRSimilarity.

(** * Further properties of the notebooks' code *)

(** ** [GS] on arbitrary lists of values *)

Section GramSchmidtAnyInput.

Context {V : Type} {ops : VectorOps V}.

Lemma GS_project_nan_l (e : option V) : GS_project nan e = nan.
Proof. reflexivity. Qed.

Lemma GS_project_nan_r (v : option V) : GS_project v nan = nan.
Proof. destruct v; reflexivity. Qed.

Lemma fold_project_from_nan (e_list : list (option V)) :
  fold_left GS_project e_list nan = nan.
Proof. induction e_list as [| e l IH]; simpl; [reflexivity | exact IH]. Qed.

Lemma fold_project_over_nan (e_list : list (option V)) (v : option V) :
  In nan e_list -> fold_left GS_project e_list v = nan.
Proof.
  revert v. induction e_list as [| e l IH]; intros v Hin; [destruct Hin |].
  simpl. destruct Hin as [-> | Hin].
  - rewrite GS_project_nan_r. apply fold_project_from_nan.
  - apply IH, Hin.
Qed.

Lemma GS_body_after_nan (e_list : list (option V)) (v : option V) :
  In nan e_list -> GS_body e_list v = e_list ++ [nan].
Proof.
  intros Hin. unfold GS_body. now rewrite (fold_project_over_nan _ _ Hin).
Qed.

Lemma GS_body_of_nan (e_list : list (option V)) :
  GS_body e_list nan = e_list ++ [nan].
Proof. unfold GS_body. now rewrite fold_project_from_nan. Qed.

Lemma GS_body_app (e_list : list (option V)) (v : option V) :
  exists e, GS_body e_list v = e_list ++ [e].
Proof. unfold GS_body. eexists. reflexivity. Qed.

Lemma GS_output_nan_absorbing (l : list (option V)) (i j : nat) :
  nth_error (GS l) i = Some nan -> (i <= j)%nat -> (j < length l)%nat ->
  nth_error (GS l) j = Some nan.
Proof.
  induction l as [| v l IH] using rev_ind; intros Hi Hij Hj; [simpl in Hj; lia |].
  rewrite length_app in Hj. simpl in Hj.
  rewrite GS_snoc in *. destruct (GS_body_app (GS l) v) as [e He].
  pose proof (GS_length l) as Hlen.
  destruct (Nat.eq_dec j (length l)) as [-> | Hne].
  - destruct (Nat.eq_dec i (length l)) as [-> | Hne']; [exact Hi |].
    rewrite He in Hi. rewrite nth_error_app1 in Hi by lia.
    apply nth_error_In in Hi.
    rewrite (GS_body_after_nan _ _ Hi).
    rewrite nth_error_app2 by lia. rewrite Hlen, Nat.sub_diag. reflexivity.
  - rewrite He in *. rewrite nth_error_app1 in * by lia.
    apply IH; [exact Hi | exact Hij | lia].
Qed.

Lemma GS_input_nan (l : list (option V)) (i : nat) :
  nth_error l i = Some nan -> nth_error (GS l) i = Some nan.
Proof.
  intros Hi.
  assert (Hlt : (i < length l)%nat) by (apply nth_error_Some; congruence).
  apply nth_error_split in Hi. destruct Hi as (l1 & l2 & -> & <-).
  unfold GS. rewrite fold_left_app. simpl fold_left at 1.
  fold (GS l1). rewrite GS_body_of_nan.
  pose proof (fold_GS_body_prefix l2 (GS l1 ++ [nan])) as E.
  apply (f_equal (fun x => nth_error x (length l1))) in E.
  rewrite nth_error_firstn in E.
  rewrite length_app, GS_length in E. simpl in E.
  replace (length l1 <? length l1 + 1)%nat with true in E
    by (symmetry; apply Nat.ltb_lt; lia).
  rewrite E. rewrite nth_error_app2 by (rewrite GS_length; lia).
  rewrite GS_length, Nat.sub_diag. reflexivity.
Qed.

(** X1. The first [j] outputs of [GS] depend on the first [j] inputs only:
    truncating the output after [j] entries is running [GS] on the input
    truncated after [j] entries, for every input list and every [j]. *)
Theorem GS_prefix (l : list (option V)) (j : nat) :
  firstn j (GS l) = GS (firstn j l).
Proof.
  destruct (Nat.le_gt_cases j (length l)) as [Hle | Hgt].
  - apply GS_firstn, Hle.
  - rewrite !firstn_all2; [reflexivity | lia | rewrite GS_length; lia].
Qed.

(** X2. [nan] is absorbing in [GS]: when the input at index [i] is [nan], or
    the output at index [i] is [nan], every output from index [i] on is
    [nan]. *)
Theorem GS_nan_absorbing (l : list (option V)) (i j : nat) :
  nth_error l i = Some nan \/ nth_error (GS l) i = Some nan ->
  (i <= j)%nat -> (j < length l)%nat ->
  nth_error (GS l) j = Some nan.
Proof.
  intros [Hi | Hi] Hij Hj.
  - apply (GS_output_nan_absorbing l i j); [apply GS_input_nan, Hi | exact Hij | exact Hj].
  - now apply (GS_output_nan_absorbing l i j).
Qed.

End GramSchmidtAnyInput.

Lemma GS_nan_absorbing_witness :
  nth_error (GS [Some X; nan; Some (const 1)]) 2 = Some nan.
Proof.
  apply (GS_nan_absorbing [Some X; nan; Some (const 1)] 1 2).
  - left. reflexivity.
  - lia.
  - simpl. lia.
Defined.

(** ** [GS] decides linear independence *)

Section GramSchmidtDecides.

Context {V : Type} {ops : VectorOps V} {IPS : InnerProductSpace V}.

Lemma ip_lincomb_orth (cs : list R) (es : list V) (w : V) :
  Forall (fun e => ip e w = 0) es -> ip (lincomb cs es) w = 0.
Proof.
  intros H. revert cs. induction H as [| e es He _ IH]; intros [| c cs]; simpl;
    try apply ip_vzero_l.
  rewrite ip_vadd_l, ip_vscale_l, He, IH. lra.
Qed.

Lemma vadd_eq_zero (a b : V) : vadd a b == vzero -> b == vscale (-1) a.
Proof.
  intros E.
  rewrite <- (vadd_zero_l b), <- (vadd_opp a).
  rewrite (vadd_comm a), <- vadd_assoc, E. apply vadd_zero_r.
Qed.

(** The residual of a vector of the span of an orthonormal list is zero. *)
Lemma residualV_of_span (es : list V) (w : V) :
  orthoV es -> in_span w es ->
  ip (residualV es w) (residualV es w) = 0.
Proof.
  intros Ho Hw.
  destruct (residualV_form es w) as (cs & Hl & Hc).
  assert (Hr : in_span (residualV es w) es).
  { apply (proj2 (in_span_proper _ _ Hc _ _ eq_refl)).
    apply in_span_vsub; [exact Hw |].
    apply in_span_lincomb, Forall_forall. intros e He. now apply in_span_In. }
  destruct Hr as (ds & _ & Hd).
  rewrite Hd at 1. apply ip_lincomb_orth.
  pose proof (residualV_orth es w Ho) as Horth.
  rewrite Forall_forall in *. intros e He. rewrite ip_sym. now apply Horth.
Qed.

Lemma lin_indep_snoc (vs : list V) (v : V) :
  lin_indep vs -> ~ in_span v vs -> lin_indep (vs ++ [v]).
Proof.
  intros Hli Hv cs Hlen Hc.
  rewrite length_app in Hlen. simpl in Hlen.
  destruct (exists_last (l := cs)) as (cs' & c & ->).
  { intros ->. simpl in Hlen. lia. }
  rewrite length_app in Hlen. simpl in Hlen.
  assert (Hl' : length cs' = length vs) by lia.
  rewrite lincomb_app in Hc by exact Hl'. simpl in Hc.
  rewrite vadd_zero_r in Hc.
  destruct (Req_dec_T c 0) as [-> | Hc0].
  - rewrite vscale_zero_l, vadd_zero_r in Hc.
    apply Forall_app. split; [now apply Hli | repeat constructor].
  - exfalso. apply Hv. apply vadd_eq_zero in Hc.
    exists (map (Rmult (- / c)) cs'). split; [now rewrite length_map |].
    rewrite lincomb_scale.
    assert (E : v == vscale (/ c) (vscale c v)).
    { rewrite vscale_assoc, Rinv_l by exact Hc0. symmetry. apply vscale_one. }
    rewrite E, Hc, vscale_assoc. apply vscale_proper; [lra | reflexivity].
Qed.

(** When no output is [nan], the loop invariant holds and the input was
    linearly independent. *)
Lemma GS_finite_inv (vs es : list V) :
  GS (map Some vs) = map Some es -> GS_post vs es /\ lin_indep vs.
Proof.
  revert es. induction vs as [| v vs IH] using rev_ind; intros es H.
  - destruct es; [| discriminate]. split.
    + repeat split; constructor.
    + intros [| c cs] Hl _; [constructor | discriminate].
  - rewrite map_app in H. simpl in H. rewrite GS_snoc in H.
    destruct (GS_body_app (GS (map Some vs)) (Some v)) as [e He].
    assert (Hlen : length es = S (length vs)).
    { apply (f_equal (@length _)) in H. rewrite He, length_app, GS_length in H.
      rewrite !length_map in H. simpl in H. lia. }
    destruct (exists_last (l := es)) as (es' & e' & ->).
    { intros ->. discriminate. }
    rewrite length_app in Hlen. simpl in Hlen.
    rewrite map_app in H. simpl in H.
    assert (H1 : GS (map Some vs) = map Some es').
    { rewrite He in H. apply app_inj_tail in H. apply H. }
    destruct (IH es' H1) as (Hpost & Hli).
    rewrite H1 in H.
    destruct (Req_dec_T (ip (residualV es' v) (residualV es' v)) 0) as [E0 | N0].
    + rewrite (GS_body_degenerate es' v E0) in H.
      apply app_inj_tail in H. destruct H as [_ H]. discriminate.
    + rewrite (GS_body_finite es' v N0), map_app in H. simpl in H.
      apply app_inj_tail in H. destruct H as [_ H]. injection H as <-.
      split; [now apply GS_post_step |].
      apply lin_indep_snoc; [exact Hli |].
      intros Hv. apply N0. apply residualV_of_span; [apply Hpost |].
      apply (in_span_trans v vs es' Hv). apply Hpost.
Qed.

Lemma nth_error_all_finite (l : list (option V)) :
  (forall k, (k < length l)%nat -> nth_error l k <> Some nan) -> all_finite l.
Proof.
  induction l as [| a l IH]; intros H; [now exists [] |].
  destruct IH as [es ->].
  { intros k Hk. apply (H (S k)). simpl. lia. }
  destruct a as [u |].
  - now exists (u :: es).
  - exfalso. apply (H 0%nat); [simpl; lia | reflexivity].
Qed.

(** X3. [GS] decides linear independence: on a list of finite vectors the
    output contains no [nan] exactly when the input list is linearly
    independent. *)
Theorem GS_finite_iff_independent (vs : list V) :
  all_finite (GS (map Some vs)) <-> lin_indep vs.
Proof.
  split.
  - intros [es H]. apply (GS_finite_inv vs es H).
  - intros Hli. destruct (GS_finite vs Hli) as (es & H & _). now exists es.
Qed.

(** X4. [GS] locates the first dependence: on a list of finite vectors the
    output at index [i] is [nan] exactly when the first [i+1] inputs are
    linearly dependent. *)
Theorem GS_nan_iff_dependent (vs : list V) (i : nat) :
  (i < length vs)%nat ->
  (nth_error (GS (map Some vs)) i = Some nan <-> ~ lin_indep (firstn (S i) vs)).
Proof.
  intros Hi.
  pose proof (GS_firstn (S i) (map Some vs)) as Hpre.
  rewrite length_map in Hpre. specialize (Hpre ltac:(lia)).
  rewrite firstn_map in Hpre.
  split.
  - intros Hnan Hli. destruct (GS_finite _ Hli) as (es & H & _).
    rewrite H in Hpre.
    apply (f_equal (fun x => nth_error x i)) in Hpre.
    rewrite nth_error_firstn in Hpre.
    replace (i <? S i)%nat with true in Hpre by (symmetry; apply Nat.ltb_lt; lia).
    rewrite Hnan, nth_error_map in Hpre.
    destruct (nth_error es i); discriminate.
  - intros Hdep.
    destruct (nth_error (GS (map Some vs)) i) as [[u |] |] eqn:E; [| reflexivity |].
    + exfalso. apply Hdep.
      assert (Hfin : all_finite (GS (map Some (firstn (S i) vs)))).
      { rewrite <- Hpre. apply nth_error_all_finite.
        intros k Hk Hnan.
        rewrite length_firstn, GS_length, length_map in Hk.
        rewrite nth_error_firstn in Hnan.
        replace (k <? S i)%nat with true in Hnan
          by (symmetry; apply Nat.ltb_lt; lia).
        assert (Habs : nth_error (GS (map Some vs)) i = Some nan).
        { apply (GS_output_nan_absorbing _ k i Hnan); [lia |].
          rewrite length_map. exact Hi. }
        congruence. }
      destruct Hfin as [es Hes]. exact (proj2 (GS_finite_inv _ es Hes)).
    + apply nth_error_None in E. rewrite GS_length, length_map in E. lia.
Qed.

End GramSchmidtDecides.

Lemma X_2X_dependent : ~ lin_indep [X; pscale 2 X].
Proof.
  intros H. specialize (H [2; -1] eq_refl).
  assert (E : lincomb [2; -1] [X; pscale 2 X] == vzero).
  { intros n. destruct n as [| [| [| n]]]; simpl; lra. }
  specialize (H E). inversion H; subst. lra.
Qed.

Lemma GS_finite_iff_independent_witness :
  all_finite (GS v_list) <-> lin_indep [const 1; X; pmul X X].
Proof. exact (GS_finite_iff_independent [const 1; X; pmul X X]). Defined.

Lemma GS_nan_iff_dependent_witness :
  nth_error (GS [Some X; Some (pscale 2 X); Some (const 1)]) 1 = Some nan.
Proof.
  apply (GS_nan_iff_dependent [X; pscale 2 X; const 1] 1); [simpl; lia |].
  exact X_2X_dependent.
Defined.

(** ** The outputs of [GS] against the inputs *)

Section GramSchmidtTriangular.

Context {V : Type} {ops : VectorOps V} {IPS : InnerProductSpace V}.

Lemma normalizeV_orth (es : list V) (r : V) :
  Forall (fun e => ip r e = 0) es ->
  Forall (fun e => ip e (normalizeV r) = 0) es.
Proof.
  intros H. rewrite Forall_forall in *. intros e He.
  unfold normalizeV. rewrite ip_vscale_r, (ip_sym e r), (H e He). lra.
Qed.

(** The output at the index of [v] in [l1 ++ v :: l2]. *)
Lemma GS_output_at (l1 l2 : list V) (v : V) :
  lin_indep (l1 ++ v :: l2) ->
  exists es, GS_post l1 es /\
             ip (residualV es v) (residualV es v) <> 0 /\
             nth_error (GS (map Some (l1 ++ v :: l2))) (length l1)
             = Some (Some (normalizeV (residualV es v))).
Proof.
  intros Hli.
  assert (Hli1 : lin_indep (l1 ++ [v])).
  { apply (lin_indep_app_l _ l2). now rewrite <- app_assoc. }
  destruct (GS_finite l1 (lin_indep_app_l _ _ Hli1)) as (es & HGS & _ & Hpost).
  assert (Hr : ip (residualV es v) (residualV es v) <> 0).
  { apply (residual_nonzero l1); [exact Hli1 | apply Hpost]. }
  exists es. repeat split; try apply Hpost; [exact Hr |].
  assert (Hle : (S (length l1) <= length (map Some (l1 ++ v :: l2)))%nat).
  { rewrite length_map, length_app. simpl. lia. }
  pose proof (GS_firstn _ _ Hle) as Hpre. rewrite firstn_map in Hpre.
  replace (firstn (S (length l1)) (l1 ++ v :: l2)) with (l1 ++ [v]) in Hpre.
  2:{ rewrite firstn_app, firstn_all2 by lia.
      replace (S (length l1) - length l1)%nat with 1%nat by lia. reflexivity. }
  rewrite (map_app Some l1 [v]) in Hpre.
  change (map Some [v]) with [Some v] in Hpre.
  rewrite GS_snoc, HGS, (GS_body_finite es v Hr) in Hpre.
  apply (f_equal (fun x => nth_error x (length l1))) in Hpre.
  rewrite nth_error_firstn in Hpre.
  replace (length l1 <? S (length l1))%nat with true in Hpre
    by (symmetry; apply Nat.ltb_lt; lia).
  rewrite Hpre, nth_error_map.
  destruct Hpost as (Hlen & _).
  rewrite nth_error_app2 by lia. rewrite Hlen, Nat.sub_diag. reflexivity.
Qed.

(** X5. The outputs of [GS] against the inputs form a triangular array with a
    positive diagonal: on a linearly independent list, output [j] is
    orthogonal to every input [i] with [i < j], and its inner product with
    input [j] is positive. *)
Theorem GS_triangular (vs : list V) (i j : nat) (u : V) :
  lin_indep vs -> nth_error vs i = Some u -> (i <= j)%nat ->
  (j < length vs)%nat ->
  exists c, inner (nth j (GS (map Some vs)) nan) (Some u) = Some c /\
            ((i < j)%nat -> c = 0) /\ (i = j -> 0 < c).
Proof.
  intros Hli Hu Hij Hj.
  destruct (nth_split vs vzero Hj) as (l1 & l2 & Evs & Hl1).
  set (v := nth j vs vzero) in *.
  rewrite Evs in Hli.
  destruct (GS_output_at l1 l2 v Hli) as (es & Hpost & Hr & Hout).
  rewrite <- Evs, Hl1 in Hout.
  rewrite (nth_error_nth _ _ nan Hout).
  set (r := residualV es v) in *.
  exists (ip (normalizeV r) u). split; [reflexivity |].
  destruct Hpost as (Hlen & Ho & Hin & _).
  pose proof (residualV_orth es v Ho) as Hro. fold r in Hro.
  split.
  - intros Hlt.
    assert (Hu1 : In u l1).
    { rewrite Evs in Hu. rewrite nth_error_app1 in Hu by lia.
      now apply nth_error_In in Hu. }
    rewrite Forall_forall in Hin. destruct (Hin u Hu1) as (cs & _ & Hc).
    rewrite Hc, ip_sym. apply ip_lincomb_orth, normalizeV_orth, Hro.
  - intros ->.
    assert (Eu : u = v).
    { rewrite Evs in Hu. rewrite nth_error_app2 in Hu by lia.
      rewrite Hl1, Nat.sub_diag in Hu. simpl in Hu. congruence. }
    subst u.
    destruct (residualV_form es v) as (cs & _ & Hc). fold r in Hc.
    assert (Ev : v == vadd r (lincomb cs es)).
    { rewrite Hc. symmetry. apply vsub_vadd_cancel. }
    assert (E : ip r v = ip r r).
    { rewrite (ip_proper r r (reflexivity r) v _ Ev).
      rewrite ip_sym, ip_vadd_l, (ip_lincomb_orth cs es r).
      - lra.
      - rewrite Forall_forall in *. intros e He. rewrite ip_sym. now apply Hro. }
    unfold normalizeV. rewrite ip_vscale_l, E.
    assert (Hpos : 0 < ip r r).
    { destruct (ip_nonneg r) as [Hlt | Heq]; [exact Hlt | now elim Hr]. }
    apply Rmult_lt_0_compat; [| exact Hpos].
    apply Rinv_0_lt_compat, sqrt_lt_R0, Hpos.
Qed.

End GramSchmidtTriangular.

Lemma GS_triangular_witness :
  exists c, inner (nth 1 (GS v_list) nan) (Some (const 1)) = Some c /\
            ((0 < 1)%nat -> c = 0) /\ (0%nat = 1%nat -> 0 < c).
Proof.
  apply (GS_triangular [const 1; X; pmul X X] 0 1 (const 1) lin_indep_monomials).
  - reflexivity.
  - lia.
  - simpl. lia.
Defined.

(** ** [GS] on orthonormal lists *)

Section GramSchmidtIdempotent.

Context {V : Type} {ops : VectorOps V} {IPS : InnerProductSpace V}.

#[export] Instance sveq_equiv : Equivalence (@sveq V ops).
Proof.
  split.
  - intros [u |]; simpl; [reflexivity | exact I].
  - intros [u |] [w |]; simpl; auto. intros H. now symmetry.
  - intros [u |] [w |] [z |]; simpl; auto; try contradiction.
    intros H1 H2. now rewrite H1.
Qed.

Lemma GS_project_sveq (v v' e e' : option V) :
  sveq v v' -> sveq e e' -> sveq (GS_project v e) (GS_project v' e').
Proof.
  destruct v as [v |], v' as [v' |], e as [e |], e' as [e' |]; simpl;
    try contradiction; auto.
  intros Hv He. now rewrite Hv, He.
Qed.

Lemma fold_project_sveq (l l' : list (option V)) (v v' : option V) :
  Forall2 sveq l l' -> sveq v v' ->
  sveq (fold_left GS_project l v) (fold_left GS_project l' v').
Proof.
  intros Hl. revert v v'. induction Hl as [| e e' l l' He _ IH]; intros v v' Hv.
  - exact Hv.
  - simpl. apply IH. now apply GS_project_sveq.
Qed.

Lemma normalise_sveq (r r' : option V) :
  sveq r r' -> sveq (sdiv r (norm r)) (sdiv r' (norm r')).
Proof.
  destruct r as [r |], r' as [r' |]; simpl; try contradiction; auto.
  intros Hr. rewrite <- (ip_proper _ _ Hr _ _ Hr).
  destruct (Req_dec_T (sqrt (ip r r)) 0); simpl; [exact I |].
  now rewrite Hr.
Qed.

Lemma Forall2_sveq_refl (l : list (option V)) : Forall2 sveq l l.
Proof. induction l; constructor; [reflexivity | assumption]. Qed.

Lemma Forall2_sveq_trans (l1 l2 l3 : list (option V)) :
  Forall2 sveq l1 l2 -> Forall2 sveq l2 l3 -> Forall2 sveq l1 l3.
Proof.
  intros H. revert l3. induction H as [| a b l l' Hab _ IH]; intros l3 H3.
  - inversion H3. constructor.
  - inversion H3; subst. constructor; [now transitivity b | now apply IH].
Qed.

Lemma GS_body_sveq (l l' : list (option V)) (v v' : option V) :
  Forall2 sveq l l' -> sveq v v' -> Forall2 sveq (GS_body l v) (GS_body l' v').
Proof.
  intros Hl Hv. unfold GS_body. apply Forall2_app; [exact Hl |].
  constructor; [| constructor].
  apply normalise_sveq, fold_project_sveq; assumption.
Qed.

(** Equal inputs give equal outputs. *)
Lemma GS_sveq (l l' : list (option V)) :
  Forall2 sveq l l' -> Forall2 sveq (GS l) (GS l').
Proof.
  unfold GS. intros Hl.
  assert (Hacc : Forall2 sveq (@nil (option V)) []) by constructor.
  revert Hacc. generalize (@nil (option V)) at 1 3. generalize (@nil (option V)).
  induction Hl as [| v v' l l' Hv _ IH]; intros acc' acc Hacc; simpl.
  - exact Hacc.
  - apply IH. now apply GS_body_sveq.
Qed.

Lemma orthoV_snoc_inv (es : list V) (e : V) :
  orthoV (es ++ [e]) ->
  orthoV es /\ Forall (fun e' => ip e e' = 0) es /\ ip e e = 1.
Proof.
  induction es as [| a es IH]; simpl.
  - intros (He & _ & _). repeat split; [constructor | exact He].
  - intros (Ha & Hort & Ho). apply Forall_app in Hort.
    destruct Hort as [Hort Hae]. inversion Hae; subst.
    destruct (IH Ho) as (Ho' & Hort' & He).
    repeat split; try assumption.
    constructor; [rewrite ip_sym; assumption | exact Hort'].
Qed.

Lemma residualV_of_orthogonal (es : list V) (e w : V) :
  w == e -> Forall (fun e' => ip e e' = 0) es -> residualV es w == e.
Proof.
  intros Hw H. revert w Hw. induction H as [| a es Ha _ IH]; intros w Hw.
  - exact Hw.
  - simpl. apply IH. unfold projectV.
    rewrite (ip_proper _ _ Hw a a (reflexivity a)), Ha.
    rewrite vscale_zero_l, vsub_def, vscale_zero_r, vadd_zero_r. exact Hw.
Qed.

Lemma GS_fixes_orthoV (es : list V) :
  orthoV es -> Forall2 sveq (GS (map Some es)) (map Some es).
Proof.
  induction es as [| e es IH] using rev_ind; intros Ho; [constructor |].
  apply orthoV_snoc_inv in Ho. destruct Ho as (Ho & Hort & He).
  rewrite map_app. change (map Some [e]) with [Some e]. rewrite GS_snoc.
  apply (Forall2_sveq_trans _ (GS_body (map Some es) (Some e))).
  - apply GS_body_sveq; [apply IH, Ho | reflexivity].
  - pose proof (residualV_of_orthogonal es e e (reflexivity e) Hort) as Hr.
    assert (Hrr : ip (residualV es e) (residualV es e) = 1).
    { now rewrite (ip_proper _ _ Hr _ _ Hr). }
    rewrite (GS_body_finite es e) by lra.
    rewrite map_app. apply Forall2_app; [apply Forall2_sveq_refl |].
    constructor; [| constructor]. simpl. unfold normalizeV.
    rewrite Hrr, sqrt_1, Rinv_1, vscale_one. exact Hr.
Qed.

Lemma orthonormal_orthoV (es : list V) : orthonormal (map Some es) -> orthoV es.
Proof.
  induction es as [| a es IH]; intros [Hoff Hnorm]; [exact I |].
  rewrite length_map in *. simpl in *.
  assert (Ha : ip a a = 1).
  { specialize (Hnorm 0%nat ltac:(lia)). unfold norm in Hnorm. simpl in Hnorm.
    injection Hnorm as Hs.
    rewrite <- (sqrt_sqrt (ip a a) (ip_nonneg a)), Hs. lra. }
  repeat split; [exact Ha | |].
  - apply Forall_forall. intros e He.
    destruct (In_nth es e vzero He) as (k & Hk & <-).
    specialize (Hoff 0%nat (S k) ltac:(lia) ltac:(lia) ltac:(lia)).
    simpl in Hoff. rewrite nth_map_Some in Hoff by exact Hk.
    simpl in Hoff. congruence.
  - apply IH. split; rewrite length_map.
    + intros i j Hi Hj Hij.
      apply (Hoff (S i) (S j)); lia.
    + intros i Hi. apply (Hnorm (S i)). lia.
Qed.

(** X6. [GS] leaves an orthonormal list as it is: on a list of finite vectors
    that is orthonormal under [inner], every output equals the input at the
    same index. *)
Theorem GS_fixes_orthonormal (es : list V) :
  orthonormal (map Some es) -> Forall2 sveq (GS (map Some es)) (map Some es).
Proof. intros H. apply GS_fixes_orthoV, orthonormal_orthoV, H. Qed.

(** X7. [GS] is idempotent: on a linearly independent list, running [GS] on
    its own output returns that output. *)
Theorem GS_idempotent (vs : list V) :
  lin_indep vs -> Forall2 sveq (GS (GS (map Some vs))) (GS (map Some vs)).
Proof.
  intros Hli. destruct (GS_finite vs Hli) as (es & -> & _ & Hpost).
  apply GS_fixes_orthoV, Hpost.
Qed.

End GramSchmidtIdempotent.

Lemma orthonormal_const_1 : orthonormal (map Some [const 1]).
Proof.
  split; simpl.
  - intros i j Hi Hj Hij. lia.
  - intros i Hi. assert (i = 0%nat) as -> by lia. unfold norm. simpl.
    f_equal. replace (poly_inner (const 1) (const 1)) with 1
      by (poly_unfold; field).
    apply sqrt_1.
Qed.

Lemma GS_fixes_orthonormal_witness :
  Forall2 sveq (GS [Some (const 1)]) [Some (const 1)].
Proof. exact (GS_fixes_orthonormal [const 1] orthonormal_const_1). Defined.

Lemma GS_idempotent_witness : Forall2 sveq (GS (GS v_list)) (GS v_list).
Proof.
  exact (GS_idempotent [const 1; X; pmul X X] lin_indep_monomials).
Defined.

(** ** [inner] and [norm] *)

Section InnerNorm.

Context {V : Type} {ops : VectorOps V} {IPS : InnerProductSpace V}.

Lemma ip_vsub_r (u v w : V) : ip w (vsub u v) = ip w u - ip w v.
Proof. rewrite !(ip_sym w). apply ip_vsub_l. Qed.

Lemma ip_vzero_r (w : V) : ip w vzero = 0.
Proof. rewrite ip_sym. apply ip_vzero_l. Qed.

Lemma ip_cauchy_schwarz (u v : V) : ip u v * ip u v <= ip u u * ip v v.
Proof.
  pose proof (ip_nonneg v) as Hv. pose proof (ip_nonneg u) as Hu.
  destruct (Req_dec_T (ip v v) 0) as [E | N].
  - assert (Z : ip u v = 0).
    { rewrite (ip_proper u u (reflexivity u) v vzero (ip_definite v E)).
      apply ip_vzero_r. }
    rewrite Z, E. lra.
  - pose proof (ip_nonneg (vsub u (vscale (ip u v / ip v v) v))) as Hw.
    rewrite ip_vsub_l, !ip_vsub_r, ip_vscale_l, !ip_vscale_r, ip_vscale_l in Hw.
    rewrite (ip_sym v u) in Hw.
    assert (Hpos : 0 < ip v v) by lra.
    assert (E : ip u u - ip u v / ip v v * ip u v
                - (ip u v / ip v v * ip u v
                   - ip u v / ip v v * (ip u v / ip v v * ip v v))
                = (ip u u * ip v v - ip u v * ip u v) / ip v v)
      by (field; exact N).
    rewrite E in Hw.
    apply (Rmult_le_compat_r (ip v v)) in Hw; [| lra].
    unfold Rdiv in Hw. rewrite Rmult_0_l, Rmult_assoc, Rinv_l, Rmult_1_r in Hw
      by exact N.
    lra.
Qed.

Lemma sqrt_eq_of_square (x s : R) : 0 <= x -> sqrt x = s -> s * s = x /\ 0 <= s.
Proof.
  intros Hx <-. split; [now apply sqrt_sqrt | apply sqrt_pos].
Qed.

(** X8. The Cauchy-Schwarz inequality for the notebook's functions: the
    absolute value of [inner(f,g)] is at most [norm(f)*norm(g)]. *)
Theorem inner_le_norms (f g : option V) (a nf ng : R) :
  inner f g = Some a -> norm f = Some nf -> norm g = Some ng ->
  Rabs a <= nf * ng.
Proof.
  destruct f as [u |], g as [v |]; try discriminate.
  unfold norm. simpl. intros [= <-] [= Hnf] [= Hng].
  destruct (sqrt_eq_of_square _ _ (ip_nonneg u) Hnf) as [Eu Pu].
  destruct (sqrt_eq_of_square _ _ (ip_nonneg v) Hng) as [Ev Pv].
  pose proof (ip_cauchy_schwarz u v) as CS. rewrite <- Eu, <- Ev in CS.
  assert (Hp : 0 <= nf * ng) by now apply Rmult_le_pos.
  apply Rabs_le. split; nra.
Qed.

(** X9. The triangle inequality for [norm]: [norm(f - g)] is at most
    [norm(f) + norm(g)]. *)
Theorem norm_triangle (f g : option V) (nd nf ng : R) :
  norm (ssub f g) = Some nd -> norm f = Some nf -> norm g = Some ng ->
  nd <= nf + ng.
Proof.
  destruct f as [u |], g as [v |]; try discriminate.
  unfold norm. simpl. intros [= Hnd] [= Hnf] [= Hng].
  destruct (sqrt_eq_of_square _ _ (ip_nonneg u) Hnf) as [Eu Pu].
  destruct (sqrt_eq_of_square _ _ (ip_nonneg v) Hng) as [Ev Pv].
  destruct (sqrt_eq_of_square _ _ (ip_nonneg (vsub u v)) Hnd) as [Ed Pd].
  rewrite ip_vsub_l, !ip_vsub_r, (ip_sym v u) in Ed.
  pose proof (ip_cauchy_schwarz u v) as CS. rewrite <- Eu, <- Ev in CS.
  assert (Hp : 0 <= nf * ng) by now apply Rmult_le_pos.
  assert (Huv : - (nf * ng) <= ip u v) by nra.
  destruct (Rle_lt_dec nd (nf + ng)) as [Hle | Hgt]; [exact Hle | nra].
Qed.

Lemma vsub_vadd_vsub (a b c : V) : vadd (vsub a b) (vsub b c) == vsub a c.
Proof.
  rewrite !vsub_def.
  rewrite vadd_assoc, <- (vadd_assoc a), (vadd_comm (vscale (-1) b) b), vadd_opp.
  now rewrite vadd_zero_r.
Qed.

(** X10. The residual that [GS] normalises is the shortest distance to the span
    of the previous outputs: for an orthonormal list [es] and every [w] in its
    span, the norm of [v] after the projection loop is at most [norm(v - w)]. *)
Theorem GS_residual_minimal (es : list V) (v w : V) (nr nd : R) :
  orthonormal (map Some es) -> in_span w es ->
  norm (fold_left GS_project (map Some es) (Some v)) = Some nr ->
  norm (ssub (Some v) (Some w)) = Some nd ->
  nr <= nd.
Proof.
  intros Ho Hw. apply orthonormal_orthoV in Ho.
  rewrite fold_project_Some. unfold norm. simpl. intros [= Hnr] [= Hnd].
  set (r := residualV es v) in *.
  destruct (residualV_form es v) as (cs & _ & Hc). fold r in Hc.
  assert (Hy : in_span (vsub (lincomb cs es) w) es).
  { apply in_span_vsub; [| exact Hw].
    apply in_span_lincomb, Forall_forall. intros e He. now apply in_span_In. }
  destruct Hy as (ds & _ & Hd).
  assert (E : vsub v w == vadd r (lincomb ds es)).
  { rewrite <- Hd, Hc. symmetry. apply vsub_vadd_vsub. }
  assert (Hry : ip (lincomb ds es) r = 0).
  { apply ip_lincomb_orth. pose proof (residualV_orth es v Ho) as Hro.
    fold r in Hro. rewrite Forall_forall in *. intros e He.
    rewrite ip_sym. now apply Hro. }
  assert (Hsq : ip (vsub v w) (vsub v w)
                = ip r r + ip (lincomb ds es) (lincomb ds es)).
  { rewrite (ip_proper _ _ E _ _ E).
    rewrite ip_vadd_l, !(ip_sym _ (vadd r (lincomb ds es))), !ip_vadd_l.
    rewrite (ip_sym r (lincomb ds es)), Hry. lra. }
  rewrite <- Hnr, <- Hnd, Hsq. apply sqrt_le_1_alt.
  pose proof (ip_nonneg (lincomb ds es)). lra.
Qed.

End InnerNorm.

Lemma inner_le_norms_witness :
  Rabs (poly_inner (const 1) X)
  <= sqrt (poly_inner (const 1) (const 1)) * sqrt (poly_inner X X).
Proof.
  exact (inner_le_norms (Some (const 1)) (Some X) _ _ _ eq_refl eq_refl eq_refl).
Defined.

Lemma norm_triangle_witness :
  sqrt (poly_inner (psub X (const 1)) (psub X (const 1)))
  <= sqrt (poly_inner X X) + sqrt (poly_inner (const 1) (const 1)).
Proof.
  exact (norm_triangle (Some X) (Some (const 1)) _ _ _ eq_refl eq_refl eq_refl).
Defined.

Lemma const_1_in_span : in_span (const 1) [const 1].
Proof. apply in_span_In. now left. Qed.

Lemma GS_residual_minimal_witness :
  sqrt (poly_inner (residualV [const 1] X) (residualV [const 1] X))
  <= sqrt (poly_inner (psub X (const 1)) (psub X (const 1))).
Proof.
  exact (GS_residual_minimal [const 1] X (const 1) _ _ orthonormal_const_1
           const_1_in_span eq_refl eq_refl).
Defined.

(** ** The notebook's [inner] on polynomials *)

Section PolyInner.

(** X11. The notebook's [inner] is symmetric, also on [nan], and linear:
    [inner(f - c*g, h) = inner(f,h) - c*inner(g,h)] for polynomials. *)
Theorem inner_symmetric_linear :
  (forall f g : option poly, inner f g = inner g f) /\
  (forall (f g h : poly) (c : R),
      poly_inner (psub f (pscale c g)) h = poly_inner f h - c * poly_inner g h).
Proof.
  split.
  - intros [f |] [g |]; simpl; try reflexivity. f_equal.
    exact (ip_sym (V := poly) f g).
  - intros f g h c.
    change (ip (vsub f (vscale c g)) h = ip f h - c * ip g h).
    now rewrite ip_vsub_l, ip_vscale_l.
Qed.

(** X12. The notebook's [inner] is positive definite on polynomials:
    [inner(f,f)] is never negative, and [norm(f)] is 0 only for the zero
    polynomial. *)
Theorem norm_zero_iff_zero :
  (forall f : poly, 0 <= poly_inner f f) /\
  (forall f : poly, norm (Some f) = Some 0 <-> Peq f []).
Proof.
  split; [exact poly_inner_nonneg |].
  intros f. unfold norm. simpl. split.
  - intros [= H]. apply poly_inner_definite.
    apply sqrt_eq_0; [apply poly_inner_nonneg | exact H].
  - intros H. f_equal.
    rewrite (poly_inner_Peq f [] f [] H H).
    replace (poly_inner [] []) with 0 by reflexivity. apply sqrt_0.
Qed.

Lemma derivable_pt_lim_zero_const (G : R -> R) :
  (forall x, derivable_pt_lim G x 0) -> G 1 = G 0.
Proof.
  intros H.
  destruct (MVT_cor2 G (fun _ => 0) 0 1 ltac:(lra) (fun c _ => H c))
    as (c & Hc & _).
  lra.
Qed.

(** X13. [integrate(q,(x,0,1))] is the integral of [q] over the unit interval:
    for every function [F] whose derivative is [q] everywhere, it equals
    [F(1) - F(0)]. *)
Theorem integrate01_newton_leibniz (q : poly) (F : R -> R) :
  (forall x, derivable_pt_lim F x (peval q x)) ->
  integrate01 q = F 1 - F 0.
Proof.
  intros HF. rewrite integrate01_primitive.
  assert (HG : forall x, derivable_pt_lim (F - primitive q) x 0).
  { intros x.
    refine (derivable_pt_lim_eq _ _ x _ _ (fun y => eq_refl) _
              (derivable_pt_lim_minus _ _ x _ _ (HF x) (primitive_derivative q x))).
    lra. }
  pose proof (derivable_pt_lim_zero_const _ HG) as E.
  unfold minus_fct in E. lra.
Qed.

End PolyInner.

Lemma integrate01_newton_leibniz_witness :
  integrate01 X = (fun x => x * x / 2) 1 - (fun x => x * x / 2) 0.
Proof.
  apply (integrate01_newton_leibniz X (fun x => x * x / 2)).
  intros x.
  refine (derivable_pt_lim_eq _ _ x _ _ _ _
            (derivable_pt_lim_scal _ (/ 2) x _ (derivable_pt_lim_pow x 2))).
  - intros y. unfold mult_real_fct. simpl. field.
  - unfold X. simpl. field.
Defined.

(** ** The loop of the QR-algorithm cell at its edges *)

Section QRLoopEdges.

Variable qr : matrix -> matrix * matrix.

Lemma row_squares_nonneg (row : list R) :
  0 <= fold_right (fun a s => a * a + s) 0 row.
Proof.
  induction row as [| a row IH]; simpl; [lra | nra].
Qed.

Lemma sum_squares_nonneg (A : matrix) : 0 <= sum_squares A.
Proof.
  induction A as [| row A IH]; simpl; [lra |].
  fold (sum_squares A). pose proof (row_squares_nonneg row). lra.
Qed.

Lemma np_norm_nonneg (A : matrix) : 0 <= np_norm A.
Proof. apply sqrt_pos. Qed.

Lemma tril_row_le (i off : nat) (row : list R) :
  fold_right (fun a s => a * a + s) 0
    (map (fun ja : nat * R => if (fst ja <? i)%nat then snd ja else 0)
         (combine (seq off (length row)) row))
  <= fold_right (fun a s => a * a + s) 0 row.
Proof.
  revert off. induction row as [| a row IH]; intros off; simpl; [lra |].
  specialize (IH (S off)).
  destruct (off <? i)%nat; nra.
Qed.

Lemma tril_rows_le (off : nat) (A : matrix) :
  sum_squares
    (map (fun ir : nat * list R =>
            map (fun ja : nat * R => if (fst ja <? fst ir)%nat then snd ja else 0)
                (indexed (snd ir)))
         (combine (seq off (length A)) A))
  <= sum_squares A.
Proof.
  revert off. induction A as [| row A IH]; intros off; simpl; [lra |].
  apply Rplus_le_compat; [apply (tril_row_le off 0 row) | apply (IH (S off))].
Qed.

Lemma np_norm_tril_le (A : matrix) : np_norm (np_tril_below A) <= np_norm A.
Proof.
  unfold np_norm. apply sqrt_le_1_alt. apply (tril_rows_le 0 A).
Qed.

Lemma exits_at_once (eps : R) (A : matrix) :
  1 <= eps \/ (0 <= eps /\ sum_squares (np_tril_below A) = 0) ->
  ~ np_norm (np_tril_below A) > eps * np_norm A.
Proof.
  pose proof (np_norm_nonneg A) as Hn.
  pose proof (np_norm_tril_le A) as Hle.
  intros [He | [He Hz]] Hgt.
  - nra.
  - unfold np_norm at 1 in Hgt. rewrite Hz, sqrt_0 in Hgt. nra.
Qed.

(** X14. The loop body is never run when the tolerance is at least one, or
    when the tolerance is not negative and the input is already zero below
    the diagonal: the loop exits at its first test, and the cell reports the
    sorted diagonal of the input itself. *)
Theorem qr_loop_exits_at_once (eps : R) (fuel : nat) (A : matrix) :
  1 <= eps \/ (0 <= eps /\ sum_squares (np_tril_below A) = 0) ->
  qr_loop qr eps (S fuel) A = Some A /\
  qr_cell qr eps (S fuel) A = Some (np_sort (np_diag A)).
Proof.
  intros H. apply exits_at_once in H.
  assert (E : qr_loop qr eps (S fuel) A = Some A).
  { simpl. destruct (Rgt_dec _ _) as [Hgt | _]; [contradiction | reflexivity]. }
  split; [exact E |]. unfold qr_cell. now rewrite E.
Qed.

(** X15. A larger tolerance never makes the loop run longer: if the loop
    exits with tolerance [eps], then with any [eps' >= eps] it exits as well,
    at an iterate that comes no later. *)
Theorem qr_loop_tolerance_monotone (eps eps' : R) (fuel : nat) (A A' : matrix) :
  eps <= eps' -> qr_loop qr eps fuel A = Some A' ->
  exists k k', (k <= k')%nat /\
               qr_loop qr eps' fuel A = Some (iterate qr k A) /\
               A' = iterate qr k' A.
Proof.
  intros He. revert A. induction fuel as [| fuel IH]; intros A; simpl;
    [discriminate |].
  destruct (Rgt_dec (np_norm (np_tril_below A)) (eps * np_norm A)) as [Hgt | Hle];
    destruct (Rgt_dec (np_norm (np_tril_below A)) (eps' * np_norm A)) as [Hgt' | Hle'];
    intros H.
  - destruct (IH _ H) as (k & k' & Hk & E & E').
    exists (S k), (S k'). repeat split; [lia | exact E | exact E'].
  - apply qr_loop_spec in H. destruct H as (k' & _ & E' & _).
    exists 0%nat, (S k'). repeat split; [lia | exact E'].
  - exfalso. apply Hle. pose proof (np_norm_nonneg A). nra.
  - injection H as <-. exists 0%nat, 0%nat. repeat split. lia.
Qed.

End QRLoopEdges.

Lemma qr_loop_exits_at_once_witness :
  qr_loop qr_upper epsilon 1 diag_2_1 = Some diag_2_1 /\
  qr_cell qr_upper epsilon 1 diag_2_1 = Some (np_sort (np_diag diag_2_1)).
Proof.
  apply (qr_loop_exits_at_once qr_upper epsilon 0 diag_2_1).
  right. split; [unfold epsilon; lra | simpl; ring].
Defined.

Lemma qr_loop_tolerance_monotone_witness :
  exists k k', (k <= k')%nat /\
               qr_loop qr_upper 1 1 diag_2_1 = Some (iterate qr_upper k diag_2_1) /\
               diag_2_1 = iterate qr_upper k' diag_2_1.
Proof.
  apply (qr_loop_tolerance_monotone qr_upper epsilon 1 1 diag_2_1 diag_2_1).
  - unfold epsilon; lra.
  - exact qr_loop_diag_2_1.
Defined.

(** ** The factorisation cells over the matrices of a field *)

Module FactorisationTheory.

Set Warnings "-notation-overridden,-ambiguous-paths".
Import mathcomp.boot.boot mathcomp.order.order mathcomp.algebra.algebra.
Import GRing.Theory Num.Theory Order.Theory.
Import QRMatrix Factorisations.
Local Open Scope ring_scope.

Section Power.

Variable F : fieldType.
Variable n : nat.
Variable qr : 'M[F]_n -> 'M[F]_n * 'M[F]_n.

Lemma Q_acc_orthonormal (A : 'M[F]_n) (k : nat) :
  (forall j, (j < k)%N -> qr_factors_at qr (iterate_mx qr j A)) ->
  (Q_acc qr k A)^T *m Q_acc qr k A = 1%:M.
Proof.
elim: k => [|k IH] Hqr /=; first by rw trmx1 mulmx1.
have [HQ _] := Hqr k (ltnSn k).
rw trmx_mul mulmxA -[_ *m _ *m Q_acc qr k A]mulmxA IH ?mulmx1 //.
by move=> j jk; apply: Hqr; apply: ltnW.
Qed.

Lemma iterate_accumulated (A : 'M[F]_n) (k : nat) :
  (forall j, (j < k)%N -> qr_factors_at qr (iterate_mx qr j A)) ->
  iterate_mx qr k A = (Q_acc qr k A)^T *m A *m Q_acc qr k A.
Proof.
elim: k => [|k IH] Hqr; first by rw /= trmx1 mul1mx mulmx1.
have HF := Hqr k (ltnSn k); have [HQ HA] := HF.
rw QRSimilarity.iterate_mxS (QRSimilarity.step_similar _ _ _ _ _ HF).
rw (QRSimilarity.orthonormal_inv _ _ _ HQ) /=.
have IH' := IH (fun j jk => Hqr j (ltnW jk)).
by set Qk := (qr _).1; rw IH' trmx_mul !mulmxA.
Qed.

Lemma mx_powerS (k : nat) (A : 'M[F]_n) : mx_power k.+1 A = A *m mx_power k A.
Proof. by []. Qed.

Lemma Q_acc_intertwines (A : 'M[F]_n) (k : nat) :
  (forall j, (j < k)%N -> qr_factors_at qr (iterate_mx qr j A)) ->
  A *m Q_acc qr k A = Q_acc qr k A *m iterate_mx qr k A.
Proof.
move=> Hqr; rw (iterate_accumulated A k Hqr) !mulmxA.
have /mulmx1C E := Q_acc_orthonormal A k Hqr.
by rw E mul1mx.
Qed.

Lemma power_factorisation (A : 'M[F]_n) (k : nat) :
  (forall j, (j <= k)%N -> qr_factors_at qr (iterate_mx qr j A)) ->
  mx_power k.+1 A = Q_acc qr k.+1 A *m R_acc qr k.+1 A.
Proof.
elim: k => [|k IH] Hqr.
  have [_ HA] := Hqr 0 (leqnn 0).
  by rw /mx_power /= !mulmx1 mul1mx HA.
have Hqr' : forall j, (j <= k)%N -> qr_factors_at qr (iterate_mx qr j A).
  by move=> j jk; apply: Hqr; apply: leqW.
have Hqr'' : forall j, (j < k.+1)%N -> qr_factors_at qr (iterate_mx qr j A).
  by move=> j jk; apply: Hqr; apply: ltnW.
rw mx_powerS (IH Hqr') mulmxA (Q_acc_intertwines A k.+1 Hqr'').
have [_ HA] := Hqr k.+1 (leqnn _).
by rw -[in LHS]HA [Q_acc qr k.+2 A]/= [R_acc qr k.+2 A]/= !mulmxA.
Qed.

Lemma lower_mul (A B : 'M[F]_n) :
  is_trig_mx A -> is_trig_mx B -> is_trig_mx (A *m B).
Proof.
move=> /is_trig_mxP HA /is_trig_mxP HB; apply/is_trig_mxP => i j ij.
rw mxE big1 // => k _.
case: (ltnP i k) => [ik|ki]; first by rw HA ?mul0r.
by rw HB ?mulr0 //; apply: leq_ltn_trans ij.
Qed.

Lemma upper_mul (A B : 'M[F]_n) :
  upper_triangular A -> upper_triangular B -> upper_triangular (A *m B).
Proof. by rw /upper_triangular trmx_mul => HA HB; apply: lower_mul. Qed.

Lemma R_acc_upper (A : 'M[F]_n) (k : nat) :
  (forall j, (j < k)%N -> upper_triangular (qr (iterate_mx qr j A)).2) ->
  upper_triangular (R_acc qr k A).
Proof.
elim: k => [|k IH] HR /=; first by rw /upper_triangular trmx1 scalar_mx_is_trig.
apply: upper_mul; first exact: HR.
by apply: IH => j jk; apply: HR; apply: ltnW.
Qed.

Lemma char_poly_tr (A : 'M[F]_n) : char_poly A^T = char_poly A.
Proof.
rw /char_poly /char_poly_mx -map_trmx -[in LHS](tr_scalar_mx _ 'X).
by rw -raddfB /= det_tr.
Qed.

Lemma char_poly_upper (A : 'M[F]_n) :
  upper_triangular A -> char_poly A = \prod_(a <- diag_mx_seq A) ('X - a%:P).
Proof.
move=> HA; rw -char_poly_tr (char_poly_trig HA) /diag_mx_seq big_image /=.
by apply: eq_bigr => i _; rw mxE.
Qed.

Lemma iterate_symmetric (A : 'M[F]_n) (k : nat) :
  A^T = A ->
  (forall j, (j < k)%N -> qr_factors_at qr (iterate_mx qr j A)) ->
  (iterate_mx qr k A)^T = iterate_mx qr k A.
Proof.
by move=> HA Hqr; rw (iterate_accumulated A k Hqr) !trmx_mul trmxK HA mulmxA.
Qed.

Lemma gram_symmetric (Atmp : 'M[F]_n) : (gram Atmp)^T = gram Atmp.
Proof. by rw /gram trmx_mul trmxK. Qed.

(** X16. The first [k] passes of the loop amount to one similarity transform:
    as long as [np.linalg.qr] returns an orthonormal [Q_j] with
    [Q_j@R_j = A_j], the product [Q = Q_0@...@Q_(k-1)] is orthonormal and
    [A_k = Q.T @ A @ Q]. *)
Theorem qr_accumulated_similarity (A : 'M[F]_n) (k : nat) :
  (forall j, (j < k)%N -> qr_factors_at qr (iterate_mx qr j A)) ->
  (Q_acc qr k A)^T *m Q_acc qr k A = 1%:M /\
  iterate_mx qr k A = (Q_acc qr k A)^T *m A *m Q_acc qr k A.
Proof.
by move=> Hqr; split; [apply: Q_acc_orthonormal | apply: iterate_accumulated].
Qed.

(** X17. The identity the notebook states before the cell: when, moreover,
    every [R_j] is upper triangular, [Q = Q_0@...@Q_k] and [R = R_k@...@R_0]
    are a QR factorisation of the power [A^(k+1)]: the product is the power,
    [Q] is orthonormal and [R] is upper triangular. *)
Theorem qr_power_iteration (A : 'M[F]_n) (k : nat) :
  (forall j, (j <= k)%N ->
     qr_factors_at qr (iterate_mx qr j A) /\
     upper_triangular (qr (iterate_mx qr j A)).2) ->
  [/\ mx_power k.+1 A = Q_acc qr k.+1 A *m R_acc qr k.+1 A,
      (Q_acc qr k.+1 A)^T *m Q_acc qr k.+1 A = 1%:M &
      upper_triangular (R_acc qr k.+1 A)].
Proof.
move=> H; split.
- by apply: power_factorisation => j jk; case: (H j jk).
- by apply: Q_acc_orthonormal => j jk; case: (H j jk).
- by apply: R_acc_upper => j jk; case: (H j jk).
Qed.

(** X18. On the cell's own input [A = Atmp.T @ Atmp] every iterate is a
    symmetric matrix, so an iterate whose part below the diagonal is zero is
    a diagonal matrix. *)
Theorem qr_iterates_symmetric (Atmp : 'M[F]_n) (k : nat) :
  (forall j, (j < k)%N -> qr_factors_at qr (iterate_mx qr j (gram Atmp))) ->
  (iterate_mx qr k (gram Atmp))^T = iterate_mx qr k (gram Atmp) /\
  (upper_triangular (iterate_mx qr k (gram Atmp)) ->
   is_diag_mx (iterate_mx qr k (gram Atmp))).
Proof.
move=> Hqr.
have E := iterate_symmetric (gram Atmp) k (gram_symmetric Atmp) Hqr.
split=> // /is_trig_mxP HU; apply/is_diag_mxP => i j ij.
have Eij : iterate_mx qr k (gram Atmp) i j = iterate_mx qr k (gram Atmp) j i.
  by rw -[in LHS]E mxE.
case: (ltngtP i j) ij => // [lt_ij | lt_ji] _.
- by rw Eij; have := HU i j lt_ij; rw mxE.
- by have := HU j i lt_ji; rw mxE.
Qed.

(** X19. When an iterate is upper triangular, its diagonal, which is what the
    cell sorts and prints, holds exactly the eigenvalues of the original [A]:
    the characteristic polynomial of [A] is the product of the [X - d] over
    the diagonal entries [d] of the iterate. *)
Theorem triangular_iterate_eigenvalues (A : 'M[F]_n) (k : nat) :
  (forall j, (j < k)%N -> qr_factors_at qr (iterate_mx qr j A)) ->
  upper_triangular (iterate_mx qr k A) ->
  char_poly A = \prod_(a <- diag_mx_seq (iterate_mx qr k A)) ('X - a%:P) /\
  forall a, eigenvalue A a = (a \in diag_mx_seq (iterate_mx qr k A)).
Proof.
move=> Hqr HU.
have [Hc _ _] := QRSimilarity.iterate_invariants _ _ qr A k Hqr.
have E : char_poly A = \prod_(a <- diag_mx_seq (iterate_mx qr k A)) ('X - a%:P).
  by rw -Hc; apply: char_poly_upper.
by split=> // a; rw eigenvalue_root_char E root_prod_XsubC.
Qed.

End Power.

Section Solve.

Variable F : fieldType.
Variable n : nat.
Variable solve : 'M[F]_n -> 'cV[F]_n -> 'cV[F]_n.

Lemma unit_solution_unique (A : 'M[F]_n) (x x' b : 'cV[F]_n) :
  A \in unitmx -> A *m x = b -> A *m x' = b -> x = x'.
Proof. by move=> Au Hx Hx'; rw -[x](mulKmx Au) Hx -Hx' mulKmx. Qed.

Lemma cholesky_solve_unit (A L : 'M[F]_n) (b : 'cV[F]_n) :
  solve_contract solve -> A \in unitmx -> A = L *m L^T ->
  A *m cholesky_solve solve L b = b /\ cholesky_solve solve L b = solve A b.
Proof.
move=> Hs Au EA; move: Au; rw EA unitmx_mul => /andP [Lu LTu].
have Au : L *m L^T \in unitmx by rw unitmx_mul Lu LTu.
have E : L *m L^T *m cholesky_solve solve L b = b.
  by rw /cholesky_solve /= -mulmxA !Hs.
split=> //; apply: (unit_solution_unique _ _ _ _ Au E).
exact: (Hs (L *m L^T) b Au).
Qed.

Lemma lu_solve_unit (A P L U : 'M[F]_n) (b : 'cV[F]_n) :
  solve_contract solve -> P *m P^T = 1%:M -> A \in unitmx ->
  A = P *m L *m U ->
  A *m lu_solve solve P L U b = b /\ lu_solve solve P L U b = solve A b.
Proof.
move=> Hs HP Au EA; move: Au; rw EA => Au.
move: (Au); rw !unitmx_mul => /andP [/andP [Pu Lu] Uu].
have E : P *m L *m U *m lu_solve solve P L U b = b.
  by rw /lu_solve /= -!mulmxA !Hs // mulmxA HP mul1mx.
split=> //; apply: (unit_solution_unique _ _ _ _ Au E).
exact: (Hs (P *m L *m U) b Au).
Qed.

End Solve.

Section Nilpotent.

Variable F : fieldType.
Variable n : nat.

Lemma N_upper : upper_triangular (N F n).
Proof.
apply/is_trig_mxP => i j ij; rw !mxE.
by case: eqP => // E; move: ij; rw E ltnNge leqnSn.
Qed.

Lemma N_diag (i : 'I_n.+1) : N F n i i = 0.
Proof. by rw mxE (ltn_eqF (ltnSn i)). Qed.

Lemma mx_power_N (k : nat) :
  mx_power k (N F n) = \matrix_(i, j) ((j : nat) == (i + k)%N)%:R.
Proof.
elim: k => [|k IH].
  by apply/matrixP => i j; rw /mx_power /= !mxE addn0 eq_sym.
rw mx_powerS IH; apply/matrixP => i j; rw !mxE.
case: (ltnP i.+1 n.+1) => Hi.
  rw (bigD1 (Ordinal Hi)) //= !mxE eqxx mul1r big1 ?addr0 ?addSnnS //.
  move=> l Hl; rw !mxE.
  have -> : (l == i.+1 :> nat) = false by apply: negbTE.
  by rw mul0r.
have Ej : ((j : nat) == (i + k.+1)%N) = false.
  apply: ltn_eqF; apply: (leq_trans (ltn_ord j)); apply: (leq_trans Hi).
  by rw addnS ltnS leq_addr.
rw Ej big1 // => l _; rw !mxE.
have -> : (l == i.+1 :> nat) = false.
  by apply: ltn_eqF; apply: (leq_trans (ltn_ord l)).
by rw mul0r.
Qed.

(** X20. The matrix [N = np.diag(np.ones(n),1)] is nilpotent: its
    characteristic polynomial is [X^(n+1)], zero is its only eigenvalue, and
    its power [n+1] is the zero matrix. *)
Theorem N_nilpotent :
  char_poly (N F n) = 'X ^+ n.+1 /\
  (forall a, eigenvalue (N F n) a = (a == 0)) /\
  mx_power n.+1 (N F n) = 0.
Proof.
have E : char_poly (N F n) = 'X ^+ n.+1.
  rw -char_poly_tr (char_poly_trig N_upper).
  under eq_bigr => i _ do rw mxE N_diag subr0.
  by rw prodr_const card_ord.
split=> //; split.
  by move=> a; rw eigenvalue_root_char E rootE !hornerE expf_eq0.
rw mx_power_N; apply/matrixP => i j; rw !mxE.
have Ej : ((j : nat) == (i + n.+1)%N) = false.
  by apply: ltn_eqF; apply: (leq_trans (ltn_ord j)); rw leq_addl.
by rw Ej.
Qed.

End Nilpotent.

Section Real.

Variable F : realFieldType.
Variable n : nat.
Variable solve : 'M[F]_n -> 'cV[F]_n -> 'cV[F]_n.

Lemma row_square_ge0 (y : 'rV[F]_n) : 0 <= (y *m y^T) 0 0.
Proof.
rw mxE; apply: sumr_ge0 => i _; rw mxE -expr2; exact: sqr_ge0.
Qed.

Lemma row_square_gt0 (x : 'rV[F]_n) : x != 0 -> 0 < (x *m x^T) 0 0.
Proof.
move=> x0; rw lt_def row_square_ge0 andbT.
apply: contraNneq x0; rw mxE => /eqP H0.
have Hge : forall i : 'I_n, true -> 0 <= x 0 i * x^T i 0.
  by move=> i _; rw mxE -expr2 sqr_ge0.
move: H0; rw (psumr_eq0 _ Hge) => /allP H.
apply/eqP/rowP => i; rw mxE.
have := H i (mem_index_enum i); rw /= mxE -expr2 sqrf_eq0.
by move/eqP.
Qed.

Lemma ridge_gt0 : 0 < ridge :> F.
Proof. by rw /ridge invr_gt0 exprn_gt0 // ltr0n. Qed.

Lemma cholesky_input_symmetric (Atmp : 'M[F]_n) :
  (cholesky_input Atmp)^T = cholesky_input Atmp.
Proof. by rw /cholesky_input linearD /= trmx_mul trmxK linearZ /= trmx1. Qed.

Lemma cholesky_input_positive (Atmp : 'M[F]_n) (x : 'rV[F]_n) :
  x != 0 -> 0 < (x *m cholesky_input Atmp *m x^T) 0 0.
Proof.
move=> x0; rw /cholesky_input mulmxDr mulmxDl mxE.
rw -scalemxAr mulmx1 -scalemxAl [X in _ + X]mxE.
apply: ltr_wpDl; last by rw mulr_gt0 ?ridge_gt0 ?row_square_gt0.
have -> : x *m (Atmp^T *m Atmp) *m x^T = (x *m Atmp^T) *m (x *m Atmp^T)^T.
  by rw trmx_mul trmxK !mulmxA.
exact: row_square_ge0.
Qed.

Lemma cholesky_input_unit (Atmp : 'M[F]_n) : cholesky_input Atmp \in unitmx.
Proof.
rw -row_free_unit -kermx_eq0; apply/rowV0P => v /sub_kermxP Hv.
apply/eqP; apply: contraT => v0.
by have := cholesky_input_positive Atmp v v0; rw Hv mul0mx mxE ltxx.
Qed.

(** X21. The input of the Cholesky cell,
    [A = Atmp.T@Atmp + 1.0E-10*np.eye(n)], is symmetric, positive definite and
    invertible, whatever [Atmp] is. *)
Theorem cholesky_input_spd (Atmp : 'M[F]_n) :
  [/\ (cholesky_input Atmp)^T = cholesky_input Atmp,
      (forall x : 'rV[F]_n, x != 0 -> 0 < (x *m cholesky_input Atmp *m x^T) 0 0) &
      cholesky_input Atmp \in unitmx].
Proof.
split; [exact: cholesky_input_symmetric | | exact: cholesky_input_unit].
by move=> x; apply: cholesky_input_positive.
Qed.

(** X22. The Cholesky cell solves the system: when [np.linalg.solve] solves
    invertible systems and [L] is a factor with [L @ L.T = A], then the [x]
    obtained from [y = solve(L,b)], [x = solve(L.T,y)] satisfies [A@x = b] and
    is the vector [solve(A,b)] it is compared with. *)
Theorem cholesky_solve_correct (Atmp L : 'M[F]_n) (b : 'cV[F]_n) :
  solve_contract solve -> cholesky_input Atmp = L *m L^T ->
  cholesky_input Atmp *m cholesky_solve solve L b = b /\
  cholesky_solve solve L b = solve (cholesky_input Atmp) b.
Proof.
move=> Hs EA; apply: cholesky_solve_unit => //; exact: cholesky_input_unit.
Qed.

Lemma lu_input_lower : is_trig_mx (lu_input F n).
Proof.
by apply/is_trig_mxP => i j ij; rw mxE leqNgt ij.
Qed.

Lemma lu_input_det :
  \det (lu_input F n) = \prod_(i < n) (i * n + i + 1)%:R.
Proof.
rw (det_trig lu_input_lower).
by apply: eq_bigr => i _; rw mxE leqnn.
Qed.

Lemma lu_input_unit : lu_input F n \in unitmx.
Proof.
rw unitmxE unitfE lu_input_det.
by apply/prodf_neq0 => i _; rw addn1 pnatr_eq0.
Qed.

(** X23. The test matrix of the LU cell,
    [np.tril(np.reshape(np.arange(n*n)+1,(n,n)))], is lower triangular with
    determinant the product of its diagonal entries [i*n + i + 1], and it is
    invertible. *)
Theorem lu_input_invertible :
  [/\ is_trig_mx (lu_input F n),
      \det (lu_input F n) = \prod_(i < n) (i * n + i + 1)%:R &
      lu_input F n \in unitmx].
Proof.
split; [exact: lu_input_lower | exact: lu_input_det | exact: lu_input_unit].
Qed.

(** X24. The LU cell solves the system: when [np.linalg.solve] solves
    invertible systems, [P] is orthogonal and [P@L@U = A], then the [x]
    obtained from [y = solve(L,P.T@b)], [x = solve(U,y)] satisfies [A@x = b]
    and is the vector [solve(A,b)] it is compared with. *)
Theorem lu_solve_correct (P L U : 'M[F]_n) (b : 'cV[F]_n) :
  solve_contract solve -> P *m P^T = 1%:M -> lu_input F n = P *m L *m U ->
  lu_input F n *m lu_solve solve P L U b = b /\
  lu_solve solve P L U b = solve (lu_input F n) b.
Proof.
move=> Hs HP EA; apply: lu_solve_unit => //; exact: lu_input_unit.
Qed.

End Real.

Section Runs.

Variable F : fieldType.
Variable n : nat.

Lemma qr_upper_mx_factors (A : 'M[F]_n) : qr_factors_at qr_upper_mx A.
Proof. by split; rw /= ?trmx1 mul1mx. Qed.

Lemma iterate_qr_upper_mx (k : nat) (A : 'M[F]_n) :
  iterate_mx qr_upper_mx k A = A.
Proof. by elim: k => [//|k IH]; rw QRSimilarity.iterate_mxS IH /= mulmx1. Qed.

Lemma upper_triangular_scalar (a : F) : upper_triangular (a%:M : 'M[F]_n).
Proof. by rw /upper_triangular tr_scalar_mx scalar_mx_is_trig. Qed.

Lemma solve_by_inverse_contract :
  solve_contract (solve_by_inverse : 'M[F]_n -> 'cV[F]_n -> 'cV[F]_n).
Proof. by move=> M b Mu; rw /solve_by_inverse mulKVmx. Qed.

End Runs.

Lemma qr_accumulated_similarity_witness :
  (Q_acc qr_orthogonal_mx 3 quarter_turn_mx)^T *m
    Q_acc qr_orthogonal_mx 3 quarter_turn_mx = 1%:M /\
  iterate_mx qr_orthogonal_mx 3 quarter_turn_mx
  = (Q_acc qr_orthogonal_mx 3 quarter_turn_mx)^T *m quarter_turn_mx *m
      Q_acc qr_orthogonal_mx 3 quarter_turn_mx.
Proof.
exact: (qr_accumulated_similarity _ _ qr_orthogonal_mx quarter_turn_mx 3
          (fun j _ => QRSimilarity.qr_orthogonal_mx_factors j)).
Defined.

Lemma qr_orthogonal_mx_upper (j : nat) :
  upper_triangular
    (qr_orthogonal_mx (iterate_mx qr_orthogonal_mx j quarter_turn_mx)).2.
Proof. exact: upper_triangular_scalar. Qed.

Lemma qr_power_iteration_witness :
  [/\ mx_power 3 quarter_turn_mx
      = Q_acc qr_orthogonal_mx 3 quarter_turn_mx *m
          R_acc qr_orthogonal_mx 3 quarter_turn_mx,
      (Q_acc qr_orthogonal_mx 3 quarter_turn_mx)^T *m
        Q_acc qr_orthogonal_mx 3 quarter_turn_mx = 1%:M &
      upper_triangular (R_acc qr_orthogonal_mx 3 quarter_turn_mx)].
Proof.
exact: (qr_power_iteration _ _ qr_orthogonal_mx quarter_turn_mx 2
          (fun j _ => conj (QRSimilarity.qr_orthogonal_mx_factors j)
                           (qr_orthogonal_mx_upper j))).
Defined.

Lemma qr_iterates_symmetric_witness :
  (iterate_mx qr_upper_mx 2 (gram (1%:M : 'M[rat]_2)))^T
  = iterate_mx qr_upper_mx 2 (gram (1%:M : 'M[rat]_2)) /\
  (upper_triangular (iterate_mx qr_upper_mx 2 (gram (1%:M : 'M[rat]_2))) ->
   is_diag_mx (iterate_mx qr_upper_mx 2 (gram (1%:M : 'M[rat]_2)))).
Proof.
exact: (qr_iterates_symmetric _ _ qr_upper_mx (1%:M : 'M[rat]_2) 2
          (fun j _ => qr_upper_mx_factors _ _ _)).
Defined.

Lemma iterate_scalar_upper :
  upper_triangular (iterate_mx qr_upper_mx 2 (2%:M : 'M[rat]_2)).
Proof. by rw iterate_qr_upper_mx; exact: upper_triangular_scalar. Qed.

Lemma triangular_iterate_eigenvalues_witness :
  char_poly (2%:M : 'M[rat]_2)
  = \prod_(a <- diag_mx_seq (iterate_mx qr_upper_mx 2 (2%:M : 'M[rat]_2)))
      ('X - a%:P) /\
  forall a, eigenvalue (2%:M : 'M[rat]_2) a
            = (a \in diag_mx_seq (iterate_mx qr_upper_mx 2 (2%:M : 'M[rat]_2))).
Proof.
exact: (triangular_iterate_eigenvalues _ _ qr_upper_mx (2%:M : 'M[rat]_2) 2
          (fun j _ => qr_upper_mx_factors _ _ _) iterate_scalar_upper).
Defined.

Lemma cholesky_factor_scalar :
  cholesky_input (0 : 'M[rat]_2) = ((10 ^+ 5)^-1)%:M *m (((10 ^+ 5)^-1)%:M)^T.
Proof.
rw /cholesky_input trmx0 mul0mx add0r tr_scalar_mx -scalar_mxM.
by rw -[LHS]mul_scalar_mx mulmx1 /ridge -invfM -exprD.
Qed.

Lemma cholesky_solve_correct_witness :
  cholesky_input (0 : 'M[rat]_2) *m
    cholesky_solve solve_by_inverse (((10 ^+ 5)^-1)%:M) (const_mx 1) = const_mx 1 /\
  cholesky_solve solve_by_inverse (((10 ^+ 5)^-1)%:M) (const_mx 1)
  = solve_by_inverse (cholesky_input (0 : 'M[rat]_2)) (const_mx 1).
Proof.
exact: (cholesky_solve_correct _ _ solve_by_inverse 0 _ (const_mx 1)
          (solve_by_inverse_contract _ _) cholesky_factor_scalar).
Defined.

Lemma lu_factor_trivial :
  lu_input rat 2 = 1%:M *m lu_input rat 2 *m 1%:M.
Proof. by rw mul1mx mulmx1. Qed.

Lemma lu_solve_correct_witness :
  lu_input rat 2 *m
    lu_solve solve_by_inverse 1%:M (lu_input rat 2) 1%:M (const_mx 1) = const_mx 1 /\
  lu_solve solve_by_inverse 1%:M (lu_input rat 2) 1%:M (const_mx 1)
  = solve_by_inverse (lu_input rat 2) (const_mx 1).
Proof.
apply: (lu_solve_correct _ _ solve_by_inverse 1%:M (lu_input rat 2) 1%:M
          (const_mx 1) (solve_by_inverse_contract _ _) _ lu_factor_trivial).
by rw trmx1 mulmx1.
Defined.

End FactorisationTheory.
